(** * KeeperBot: the [AddressBook] contact directory

    A shallow embedding of [keeperbot/AddressBook/addressbook.py] and the
    properties of its operations.

    Python objects are shared, mutable and compared by identity, so the
    directory is modelled as a store of [Record] objects addressed by
    location together with the ordered dictionary [self.data], which maps
    contact names to locations.  Every method is a computation in a small
    state-and-exception monad: a raised exception keeps the mutations done
    before it, exactly as in Python. *)

From Stdlib Require Import ZArith String Ascii List Lia Sorted Permutation.
From Stdlib Require OrderedTypeEx.
From stdpp Require Import base tactics option list functions sorting gmap strings.

Local Open Scope Z_scope.

(** ** Calendar dates: the part of [datetime.date] the directory uses *)

Module Date.

Record date := mk { year : Z; month : Z; day : Z }.

Definition is_leap (y : Z) : bool :=
  (y mod 4 =? 0) && (negb (y mod 100 =? 0) || (y mod 400 =? 0)).

Definition days_in_month (y m : Z) : Z :=
  if m =? 2 then (if is_leap y then 29 else 28)
  else if (m =? 4) || (m =? 6) || (m =? 9) || (m =? 11) then 30
  else 31.

(** The field check [date.__new__] performs; a date that fails it does
    not exist and constructing it raises [ValueError]. *)
Definition valid (d : date) : bool :=
  (1 <=? year d) && (year d <=? 9999) &&
  (1 <=? month d) && (month d <=? 12) &&
  (1 <=? day d) && (day d <=? days_in_month (year d) (month d)).

Definition days_before_year (y : Z) : Z :=
  let p := y - 1 in p * 365 + p / 4 - p / 100 + p / 400.

Fixpoint days_before_month_aux (y : Z) (m : nat) : Z :=
  match m with
  | O => 0
  | S m' => days_before_month_aux y m' + days_in_month y (Z.of_nat m)
  end.

Definition days_before_month (y m : Z) : Z :=
  days_before_month_aux y (Z.to_nat (m - 1)).

Definition toordinal (d : date) : Z :=
  days_before_year (year d) + days_before_month (year d) (month d) + day d.

(** [d1 < d2] compares (year, month, day) lexicographically. *)
Definition ltb (d1 d2 : date) : bool :=
  (year d1 <? year d2) ||
  ((year d1 =? year d2) &&
   ((month d1 <? month d2) ||
    ((month d1 =? month d2) && (day d1 <? day d2)))).

(** [(d1 - d2).days] *)
Definition sub_days (d1 d2 : date) : Z := toordinal d1 - toordinal d2.

(** [d.replace(year=y)]: [None] stands for the [ValueError] raised when
    the month/day does not exist in year [y] (29 February outside leap
    years) or [y] is outside 1..9999. *)
Definition replace_year (d : date) (y : Z) : option date :=
  let d' := mk y (month d) (day d) in
  if valid d' then Some d' else None.

End Date.

Abbreviation date := Date.date.

(** ** Entities: the collaborator classes [Note], [Phone], [Record]

    [record.py] is imported by [addressbook.py] but is not among the
    sources.  The entities carry the attributes that [addressbook.py]
    reads, with the types the data model of the spec gives them. *)

(** A note: its title, its text, and its tag labels.  Tags are plain
    strings, so the string rendering of a tag is the tag itself. *)
Record Note := mkNote {
  title : string;
  content : string;
  tags : list string
}.

(** A phone field object; [value] is the stored number. *)
Record Phone := mkPhone { value : string }.

Record Record := mkRecord {
  name : string;            (* record.name.value *)
  phones : list Phone;      (* record.phones *)
  birthday : option date;   (* record.birthday: None, or a field whose
                               .value is the date *)
  notes : list Note;        (* record.notes *)
  owner : bool              (* getattr(record, 'owner', False) == True *)
}.

#[global] Instance Note_eq_dec : EqDecision Note.
Proof. solve_decision. Defined.

Definition set_notes (ns : list Note) (r : Record) : Record :=
  mkRecord (name r) (phones r) (birthday r) ns (owner r).

Definition set_name (n : string) (r : Record) : Record :=
  mkRecord n (phones r) (birthday r) (notes r) (owner r).

(** ** The store and the ordered dictionary *)

(** Object identity of a [Record] instance.  Two entries of the
    directory that hold the same location hold the same object: a change
    made through one is seen through the other. *)
Definition loc := positive.

(** [self.data]: a Python [dict], which iterates in insertion order;
    kept as an association list from keys to record locations. *)
Definition dict := list (string * loc).

Fixpoint dict_get (k : string) (d : dict) : option loc :=
  match d with
  | [] => None
  | (k', v) :: d' => if String.eqb k' k then Some v else dict_get k d'
  end.

(** [d[k] = v]: an existing key keeps its position, a new key goes last. *)
Fixpoint dict_set (k : string) (v : loc) (d : dict) : dict :=
  match d with
  | [] => [(k, v)]
  | (k', v') :: d' =>
      if String.eqb k' k then (k', v) :: d' else (k', v') :: dict_set k v d'
  end.

(** [del d[k]] *)
Fixpoint dict_del (k : string) (d : dict) : dict :=
  match d with
  | [] => []
  | (k', v) :: d' =>
      if String.eqb k' k then dict_del k d' else (k', v) :: dict_del k d'
  end.

Definition keys (d : dict) : list string := fst <$> d.
Definition values (d : dict) : list loc := snd <$> d.

Record State := mkState {
  heap : loc -> Record;
  data : dict
}.

(** ** The state and exception monad *)

Inductive exn :=
| ValueError
| KeyError (key : string).

Inductive Res (A : Type) :=
| Ok (a : A)
| Raise (e : exn).
Arguments Ok {A} a.
Arguments Raise {A} e.

Definition M (A : Type) : Type := State -> Res A * State.

Definition ret {A} (a : A) : M A := fun s => (Ok a, s).

Definition bind {A B} (m : M A) (k : A -> M B) : M B :=
  fun s => match m s with
           | (Ok a, s') => k a s'
           | (Raise e, s') => (Raise e, s')
           end.

Definition raise {A} (e : exn) : M A := fun s => (Raise e, s).

#[global] Instance M_ret : MRet M := @ret.
#[global] Instance M_bind : MBind M := fun A B k m => bind m k.

Definition get_heap : M (loc -> Record) := fun s => (Ok (heap s), s).
Definition get_data : M dict := fun s => (Ok (data s), s).
Definition put_data (d : dict) : M unit :=
  fun s => (Ok tt, mkState (heap s) d).
Definition load (l : loc) : M Record := fun s => (Ok (heap s l), s).
Definition store (l : loc) (r : Record) : M unit :=
  fun s => (Ok tt, mkState (<[l := r]> (heap s)) (data s)).

Definition result {A} (m : M A) (s : State) : Res A := fst (m s).
Definition after {A} (m : M A) (s : State) : State := snd (m s).

(** ** Python built-ins used by the methods *)

(** [v in s] on strings: [v] occurs in [s] as a contiguous substring. *)
Fixpoint str_contains (v s : string) : bool :=
  String.prefix v s ||
  match s with
  | EmptyString => false
  | String _ s' => str_contains v s'
  end.

(** [str.lower] on ASCII text, used to run the searches on examples; the
    search itself is stated for an arbitrary lower-casing function. *)
Definition ascii_lower_char (c : ascii) : ascii :=
  let n := nat_of_ascii c in
  if ((65 <=? n) && (n <=? 90))%nat then ascii_of_nat (n + 32) else c.

Fixpoint ascii_lower (s : string) : string :=
  match s with
  | EmptyString => EmptyString
  | String c s' => String (ascii_lower_char c) (ascii_lower s')
  end.

(** [l.remove(x)]: drops the first element equal to [x]; [None] stands for
    the [ValueError] raised when there is none. *)
Fixpoint list_remove (x : Note) (l : list Note) : option (list Note) :=
  match l with
  | [] => None
  | y :: l' =>
      if decide (y = x) then Some l'
      else match list_remove x l' with
           | Some l'' => Some (y :: l'')
           | None => None
           end
  end.

(** The order of Python on (ASCII) strings. *)
Definition str_le (a b : string) : Prop := String.leb a b = true.
Definition str_lt (a b : string) : Prop := String.ltb a b = true.

(** [sorted(l, key=key)]: the stable sort by [key] under the string order. *)
Section Sorted.
Context {A : Type} (key : A -> string).

Fixpoint insert_sorted (x : A) (l : list A) : list A :=
  match l with
  | [] => [x]
  | y :: l' =>
      if String.leb (key x) (key y) then x :: l else y :: insert_sorted x l'
  end.

Fixpoint sorted (l : list A) : list A :=
  match l with
  | [] => []
  | x :: l' => insert_sorted x (sorted l')
  end.
(** The order [sorted] compares elements by. *)
Definition key_le (x y : A) : Prop := str_le (key x) (key y).
Definition key_lt (x y : A) : Prop := str_lt (key x) (key y).
End Sorted.

(** ** The methods of [AddressBook] *)

(** A Python value handed to [add_record]: a reference to a [Record]
    instance, or an object of any other class. *)
Inductive pyobj :=
| PyRecord (l : loc)
| PyOther.

Fixpoint get_owner_loop (ls : list loc) : M (option loc) :=
  match ls with
  | [] => mret None
  | l :: ls' =>
      record ← load l;
      if owner record then mret (Some l) else get_owner_loop ls'
  end.

Definition get_owner : M (option loc) :=
  d ← get_data; get_owner_loop (values d).

Definition add_record (record : pyobj) : M unit :=
  match record with
  | PyOther => raise ValueError
  | PyRecord l =>
      r ← load l;
      if String.eqb (name r) EmptyString then raise ValueError
      else d ← get_data; put_data (dict_set (name r) l d)
  end.

Fixpoint find_phone_loop (phone : string) (ls : list loc) : M (option loc) :=
  match ls with
  | [] => mret None
  | l :: ls' =>
      record ← load l;
      if existsb (fun number => String.eqb phone (value number)) (phones record)
      then mret (Some l)
      else find_phone_loop phone ls'
  end.

Definition find_phone (phone : string) : M (option loc) :=
  d ← get_data; find_phone_loop phone (values d).

Definition find_contact (name : string) : M (option loc) :=
  d ← get_data; mret (dict_get name d).

Definition delete (name : string) : M string :=
  d ← get_data;
  match dict_get name d with
  | Some _ => put_data (dict_del name d);; mret "Contact deleted."%string
  | None => raise ValueError
  end.

Definition py_replace_year (d : date) (y : Z) : M date :=
  match Date.replace_year d y with
  | Some d' => mret d'
  | None => raise ValueError
  end.

(** [today] is the value of [datetime.today().date()] at the call. *)
Fixpoint get_upcoming_birthdays_loop (today : date) (n_days : Z)
    (ls : list loc) (upcoming_birthdays : list loc) : M (list loc) :=
  match ls with
  | [] => mret upcoming_birthdays
  | l :: ls' =>
      record ← load l;
      match birthday record with
      | None => get_upcoming_birthdays_loop today n_days ls' upcoming_birthdays
      | Some birthday =>
          birthday_this_year ← py_replace_year birthday (Date.year today);
          birthday_this_year ←
            (if Date.ltb birthday_this_year today
             then py_replace_year birthday_this_year (Date.year today + 1)
             else mret birthday_this_year);
          let delta_days := Date.sub_days birthday_this_year today in
          if (0 <=? delta_days) && (delta_days <=? n_days)
          then get_upcoming_birthdays_loop today n_days ls'
                 (upcoming_birthdays ++ [l])
          else get_upcoming_birthdays_loop today n_days ls' upcoming_birthdays
      end
  end.

Definition get_upcoming_birthdays (today : date) (n_days : Z) : M (list loc) :=
  d ← get_data; get_upcoming_birthdays_loop today n_days (values d) [].

(** What [find_contacts_by_field] observes of an arbitrary Python object:
    the outcome of comparing it with the searched text by [==] and its
    [__str__] rendering. *)
Record pyview := mkView {
  py_eq : string -> bool;
  py_str : string
}.

Section FieldSearch.
(** [str.lower] *)
Variable lower : string -> string.
(** The classes of [record.py] are not part of the sources; their
    renderings and reflective attribute access are parameters. *)
Variable phone_view : Phone -> pyview.
Variable note_view : Note -> pyview.
(** [getattr(item, field_name)], [None] when [hasattr] is false. *)
Variable record_getattr : Record -> string -> option pyview.
(** [item.__dict__.values()] *)
Variable record_vars : Record -> list pyview.

(** The test of one [item] for each branch of the [if]/[elif] chain. *)
Definition match_phones (v : string) (item : Record) : bool :=
  existsb (fun phone => py_eq (phone_view phone) v) (phones item) ||
  existsb (fun phone => str_contains v (py_str (phone_view phone)))
    (phones item).

Definition match_note (v : string) (item : Record) : bool :=
  existsb (fun note => py_eq (note_view note) v) (notes item) ||
  existsb (fun note =>
             str_contains (lower v) (lower (py_str (note_view note))))
    (notes item).

Definition match_tag (v : string) (item : Record) : bool :=
  existsb (fun note =>
             existsb (fun tag => str_contains (lower v) (lower tag))
               (tags note))
    (notes item).

Definition match_view (v : string) (x : pyview) : bool :=
  py_eq x v || str_contains (lower v) (lower (py_str x)).

Definition match_field (field_name v : string) (item : Record) : bool :=
  if String.eqb field_name "phone" || String.eqb field_name "phones"
  then match_phones v item
  else if String.eqb field_name "note" then match_note v item
  else if String.eqb field_name "tag" then match_tag v item
  else match record_getattr item field_name with
       | Some field_value => match_view v field_value
       | None =>
           if String.eqb field_name "all"
           then existsb (match_view v) (record_vars item)
           else false
       end.

Fixpoint find_contacts_by_field_loop (field_name v : string)
    (ls : list loc) (result : gset loc) : M (gset loc) :=
  match ls with
  | [] => mret result
  | l :: ls' =>
      item ← load l;
      if match_field field_name v item
      then find_contacts_by_field_loop field_name v ls' ({[ l ]} ∪ result)
      else find_contacts_by_field_loop field_name v ls' result
  end.

(** [list(result)]: the elements of the set, each once, in no
    particular order. *)
Definition find_contacts_by_field (field_name v : string) : M (list loc) :=
  d ← get_data;
  result ← find_contacts_by_field_loop field_name v (values d) ∅;
  mret (elements result).
End FieldSearch.

(** The dictionary that the comprehension
    [{record.name.value: record for record in ls}] builds, starting from
    [acc]: a name met again replaces the record stored under it. *)
Definition build (h : loc -> Record) (ls : list loc) (acc : dict) : dict :=
  fold_left (fun acc record => dict_set (name (h record)) record acc) ls acc.

Definition sort_records : M unit :=
  d ← get_data;
  h ← get_heap;
  let sorted_records := sorted (fun record => name (h record)) (values d) in
  put_data (build h sorted_records []).

Fixpoint find_note_by_title_loop (note_title : string) (ls : list loc)
    : M (option Note) :=
  match ls with
  | [] => mret None
  | l :: ls' =>
      record ← load l;
      match find (fun note => String.eqb (title note) note_title)
              (notes record) with
      | Some note => mret (Some note)
      | None => find_note_by_title_loop note_title ls'
      end
  end.

Definition find_note_by_title (note_title : string) : M (option Note) :=
  d ← get_data; find_note_by_title_loop note_title (values d).

Fixpoint delete_note_by_title_loop (note_title : string) (ls : list loc)
    : M unit :=
  match ls with
  | [] => mret tt
  | l :: ls' =>
      record ← load l;
      match find (fun note => String.eqb (title note) note_title)
              (notes record) with
      | Some note =>
          match list_remove note (notes record) with
          | Some ns => store l (set_notes ns record)
          | None => raise ValueError
          end
      | None => delete_note_by_title_loop note_title ls'
      end
  end.

Definition delete_note_by_title (note_title : string) : M unit :=
  d ← get_data; delete_note_by_title_loop note_title (values d).

Fixpoint find_notes_by_tag_loop (tag : string) (ls : list loc)
    (result : list Note) : M (list Note) :=
  match ls with
  | [] => mret result
  | l :: ls' =>
      record ← load l;
      find_notes_by_tag_loop tag ls'
        (result ++
         filter (fun note => existsb (String.eqb tag) (tags note) = true)
           (notes record))
  end.

Definition find_notes_by_tag (tag : string) : M (list Note) :=
  d ← get_data; find_notes_by_tag_loop tag (values d) [].

(** [d.pop(k)] *)
Definition dict_pop (k : string) : M loc :=
  d ← get_data;
  match dict_get k d with
  | Some l => put_data (dict_del k d);; mret l
  | None => raise (KeyError k)
  end.

(** [d[k] = l] *)
Definition dict_setitem (k : string) (l : loc) : M unit :=
  d ← get_data; put_data (dict_set k l d).

(** [d[k]] *)
Definition dict_getitem (k : string) : M loc :=
  d ← get_data;
  match dict_get k d with
  | Some l => mret l
  | None => raise (KeyError k)
  end.

(** What [Record.edit_name] hands back to the caller. *)
Inductive confirmation := NameUpdated.

(** Modelled from the spec: how a record answers [edit_name(new_name)].
    [record.py] is not among the sources, and the rename of the spec
    "propagates failure from the entity": [None] says that the record
    accepts the name, [Some e] that it raises [e].  Which names a record
    refuses is left open: the methods are defined for every answer. *)
Definition entity := Record -> string -> option exn.

Section RecordEntity.
Variable refuses : entity.

(** Modelled from the spec: [Record.edit_name] of [record.py], which is not
    among the sources.  The Record's own name-update operation: it
    updates the Record's internal name field and returns a confirmation
    value, unless the record refuses the name: then it raises and the
    record stays as it was. *)
Definition edit_name (l : loc) (new_name : string) : M confirmation :=
  r ← load l;
  match refuses r new_name with
  | Some e => raise e
  | None => store l (set_name new_name r);; mret NameUpdated
  end.

Definition update_name (name new_name : string) : M confirmation :=
  l ← dict_pop name;
  dict_setitem new_name l;;
  l' ← dict_getitem new_name;
  edit_name l' new_name.

End RecordEntity.

(** * Specification vocabulary *)

(** A computation that neither fails nor touches the state. *)
Definition pure_on {A} (m : M A) (s : State) : Prop :=
  exists a, m s = (Ok a, s).

(** ** The key invariant *)

(** Every key is the name of the record stored under it. *)
Definition Inv (s : State) : Prop :=
  forall k l, (k, l) ∈ data s -> name (heap s l) = k.

Definition entry_of (h : loc -> Record) (l : loc) : string * loc :=
  (name (h l), l).

(** ** Reachable states *)

(** Which histories of a directory are considered: every call, or only
    the calls other than a rename that the record refused. *)
Inductive history := AnyCall | NoRefusedRename.

Section Steps.
Variable refuses : entity.

(** [update_name old new] gets as far as [edit_name], and the record
    refuses the new name. *)
Definition refused (s : State) (old new : string) : Prop :=
  exists l e, dict_get old (data s) = Some l /\
              refuses (heap s l) new = Some e.

(** One step of a directory's life: a call of any method (whether it
    returns or raises), or the caller changing a record through the
    record's own interface, the name excepted: names change only through
    [update_name]. *)
Inductive step (hist : history) : State -> State -> Prop :=
| step_get_owner s : step hist s (after get_owner s)
| step_add_record s o : step hist s (after (add_record o) s)
| step_find_phone s p : step hist s (after (find_phone p) s)
| step_find_contact s n : step hist s (after (find_contact n) s)
| step_delete s n : step hist s (after (delete n) s)
| step_get_upcoming_birthdays s today n :
    step hist s (after (get_upcoming_birthdays today n) s)
| step_find_contacts_by_field s lower pv nv ga rv f v :
    step hist s (after (find_contacts_by_field lower pv nv ga rv f v) s)
| step_sort_records s : step hist s (after sort_records s)
| step_find_note_by_title s t : step hist s (after (find_note_by_title t) s)
| step_delete_note_by_title s t :
    step hist s (after (delete_note_by_title t) s)
| step_find_notes_by_tag s t : step hist s (after (find_notes_by_tag t) s)
| step_update_name s n n' :
    (hist = NoRefusedRename -> ~ refused s n n') ->
    step hist s (after (update_name refuses n n') s)
| step_caller s h :
    (forall l, name (h l) = name (heap s l)) ->
    step hist s (mkState h (data s)).

(** A directory is created empty, over any store of records. *)
Inductive reachable (hist : history) : State -> Prop :=
| reachable_empty h : reachable hist (mkState h [])
| reachable_step s s' :
    reachable hist s -> step hist s s' -> reachable hist s'.

End Steps.

(** The invariant together with the well-formedness of the dictionary. *)
Definition wf (s : State) : Prop := Inv s /\ NoDup (keys (data s)).

(** ** Phones *)

(** One of the record's phones has exactly this value. *)
Definition has_phone (phone : string) (r : Record) : bool :=
  existsb (fun number => String.eqb phone (value number)) (phones r).

(** ** Notes and titles *)

Definition has_title (t : string) (r : Record) : bool :=
  existsb (fun note => String.eqb (title note) t) (notes r).

(** The notes of a record once its first note titled [t] is gone. *)
Fixpoint remove_title (t : string) (ns : list Note) : list Note :=
  match ns with
  | [] => []
  | n :: ns' => if String.eqb (title n) t then ns' else n :: remove_title t ns'
  end.

Definition count_title (t : string) (r : Record) : nat :=
  length (List.filter (fun note => String.eqb (title note) t) (notes r)).

(** No note of the directory has the title. *)
Definition no_title (t : string) (s : State) : Prop :=
  forall l, l ∈ values (data s) -> has_title t (heap s l) = false.

(** At most one note of the directory has the title: it occurs at most
    once in a record, and in at most one record. *)
Definition unique_title (t : string) (s : State) : Prop :=
  (forall l, l ∈ values (data s) -> (count_title t (heap s l) <= 1)%nat) /\
  (forall l1 l2, l1 ∈ values (data s) -> l2 ∈ values (data s) ->
     has_title t (heap s l1) = true -> has_title t (heap s l2) = true ->
     l1 = l2).

(** ** Tags *)

(** [value] is a case-insensitive substring of [tag]. *)
Definition tag_matches (lower : string -> string) (v tag : string) : Prop :=
  exists p q, lower tag = p +:+ lower v +:+ q.

(** ** The birthday window *)

(** The day count the loop body computes for a birthday, [None] when one
    of its two [replace] calls raises. *)
Definition delta_days (today birthday : date) : option Z :=
  match Date.replace_year birthday (Date.year today) with
  | None => None
  | Some this_year =>
      if Date.ltb this_year today
      then match Date.replace_year this_year (Date.year today + 1) with
           | None => None
           | Some next_year => Some (Date.sub_days next_year today)
           end
      else Some (Date.sub_days this_year today)
  end.

Definition in_window (today : date) (n_days : Z) (r : Record) : bool :=
  match birthday r with
  | None => false
  | Some b =>
      match delta_days today b with
      | None => false
      | Some delta => (0 <=? delta) && (delta <=? n_days)
      end
  end.

(** Every birthday of the directory exists in the current year, and in the
    next one when it has already passed. *)
Definition projectable (today : date) (s : State) : Prop :=
  forall l b, l ∈ values (data s) -> birthday (heap s l) = Some b ->
              is_Some (delta_days today b).

(** ** Sample directories *)

Module Samples.

Definition blank : Record := mkRecord EmptyString [] None [] false.

Definition bob : Record :=
  mkRecord "Bob" [mkPhone "456"] (Some (Date.mk 1990 6 25))
    [mkNote "todo" "call the office" ["Work"; "urgent"];
     mkNote "shopping" "milk" []]
    false.

Definition alice : Record :=
  mkRecord "Alice" [mkPhone "123"] (Some (Date.mk 1988 6 20))
    [mkNote "todo" "water the plants" ["home"]]
    true.

(** Born on 29 February. *)
Definition leapling : Record :=
  mkRecord "Luca" [] (Some (Date.mk 2000 2 29)) [] false.

Definition bob_ref : loc := 1%positive.
Definition alice_ref : loc := 2%positive.
Definition luca_ref : loc := 4%positive.

Definition store0 : loc -> Record :=
  <[bob_ref := bob]>
    (<[alice_ref := alice]> (<[luca_ref := leapling]> (fun _ => blank))).

(** Bob, then Alice, added to an empty directory. *)
Definition book : State :=
  after (add_record (PyRecord alice_ref))
    (after (add_record (PyRecord bob_ref)) (mkState store0 [])).

(** The same two contacts in ascending order of name. *)
Definition sorted_book : State :=
  mkState store0 [("Alice"%string, alice_ref); ("Bob"%string, bob_ref)].

(** A directory whose only contact was born on 29 February. *)
Definition leap_book : State :=
  mkState store0 [("Luca"%string, luca_ref)].

(** Alice, and a contact born on 29 February. *)
Definition mixed_book : State :=
  mkState store0 [("Alice"%string, alice_ref); ("Luca"%string, luca_ref)].

Definition plain_view (x : string) : pyview := mkView (String.eqb x) x.

End Samples.

(** The notes of a record that carry exactly this tag, in their order. *)
Definition notes_with_tag (tag : string) (r : Record) : list Note :=
  filter (fun note => existsb (String.eqb tag) (tags note) = true) (notes r).

(** ** The calendar behind the birthday window *)

(** The number of days of year [y]. *)
Definition year_length (y : Z) : Z := if Date.is_leap y then 366 else 365.

(** The calendar of one year, by whether it is a leap year. *)
Definition days_in_month_of (leap : bool) (m : Z) : Z :=
  if m =? 2 then (if leap then 29 else 28)
  else if (m =? 4) || (m =? 6) || (m =? 9) || (m =? 11) then 30
  else 31.

Fixpoint days_before_month_of (leap : bool) (m : nat) : Z :=
  match m with
  | O => 0
  | S m' => days_before_month_of leap m' + days_in_month_of leap (Z.of_nat m)
  end.

(** The position of (month, day) in its year, 1 January being day 1. *)
Definition day_of_year (leap : bool) (m d : Z) : Z :=
  days_before_month_of leap (Z.to_nat (m - 1)) + d.

(** (month, day) comes strictly before (month', day') in a year. *)
Definition month_day_lt (m d m' d' : Z) : Prop :=
  m < m' \/ (m = m' /\ d < d').

(** Born on 29 February. *)
Definition feb29 (b : date) : Prop := Date.month b = 2 /\ Date.day b = 29.

(** Every birthday stored in the directory is a date of the calendar. *)
Definition valid_birthdays (s : State) : Prop :=
  forall l b, l ∈ values (data s) -> birthday (heap s l) = Some b ->
              Date.valid b = true.

(** The scan raises at this record. *)
Definition raises_at (today : date) (r : Record) : bool :=
  match birthday r with
  | Some b => if delta_days today b is None then true else false
  | None => false
  end.

Definition has_birthday (r : Record) : bool :=
  if birthday r is Some _ then true else false.

(** ** More sample directories *)

Module MoreSamples.

(** A second contact called Bob. *)
Definition bob_junior : Record :=
  mkRecord "Bob" [mkPhone "789"; mkPhone "456"] None
    [mkNote "ideas" "learn to sail" ["Home"; "someday"]]
    false.

Definition junior_ref : loc := 5%positive.

Definition store1 : loc -> Record := <[junior_ref := bob_junior]> Samples.store0.

(** The directory of Bob and Alice over the larger store. *)
Definition book1 : State := mkState store1 (data Samples.book).

(** A record class that accepts every name. *)
Definition any_name : entity := fun _ _ => None.

(** A record class that validates names the way [add_record] does: it
    raises [ValueError] for the empty name. *)
Definition named : entity :=
  fun _ new_name =>
    if String.eqb new_name EmptyString then Some ValueError else None.

End MoreSamples.

(** * Properties *)

(** ** Running computations *)

Ltac run_monad :=
  unfold pure_on, result, after, mbind, M_bind, bind, mret, M_ret, ret, raise,
    get_data, get_heap, put_data, load, store in *;
  cbv beta in *; cbn [fst snd heap data] in *.

Lemma pure_on_result {A} (m : M A) s :
  pure_on m s -> (exists a, result m s = Ok a) /\ after m s = s.
Proof.
  intros [a Ha]. unfold result, after. rewrite Ha. eauto.
Qed.

(** ** The dictionary *)

Section DictFacts.
Implicit Types (d : dict) (k : string) (l : loc).

Lemma dict_get_Some d k l : dict_get k d = Some l -> (k, l) ∈ d.
Proof.
  induction d as [|[k' v] d IH]; simpl; [done|].
  destruct (String.eqb_spec k' k) as [->|Hne].
  - intros [= ->]. left.
  - intros H. right. auto.
Qed.

Lemma dict_get_None d k : dict_get k d = None <-> k ∉ keys d.
Proof.
  induction d as [|[k' v] d IH]; simpl.
  - split; [intros _; apply not_elem_of_nil | done].
  - rewrite not_elem_of_cons. destruct (String.eqb_spec k' k) as [->|Hne].
    + split; [done | intros [? _]; done].
    + rewrite IH. split; [intros ?; split; auto | intros [_ ?]; done].
Qed.

Lemma elem_of_keys d k : k ∈ keys d <-> exists l, (k, l) ∈ d.
Proof.
  unfold keys. rewrite list_elem_of_fmap. split.
  - intros [[k' l] [-> H]]. eauto.
  - intros [l H]. exists (k, l). done.
Qed.

Lemma elem_of_values d l : l ∈ values d <-> exists k, (k, l) ∈ d.
Proof.
  unfold values. rewrite list_elem_of_fmap. split.
  - intros [[k l'] [-> H]]. eauto.
  - intros [k H]. exists (k, l). done.
Qed.

Lemma dict_get_set_eq d k l : dict_get k (dict_set k l d) = Some l.
Proof.
  induction d as [|[k' v] d IH]; simpl.
  - by rewrite String.eqb_refl.
  - destruct (String.eqb_spec k' k) as [->|Hne]; simpl.
    + by rewrite String.eqb_refl.
    + destruct (String.eqb_spec k' k); [done | apply IH].
Qed.

Lemma dict_get_set_ne d k k0 l :
  k0 <> k -> dict_get k0 (dict_set k l d) = dict_get k0 d.
Proof.
  intros Hne. induction d as [|[k' v] d IH]; simpl.
  - destruct (String.eqb_spec k k0); [congruence | done].
  - destruct (String.eqb_spec k' k) as [->|Hne']; simpl.
    + destruct (String.eqb_spec k k0); [congruence | done].
    + destruct (String.eqb_spec k' k0); [done | apply IH].
Qed.

Lemma keys_set d k l :
  keys (dict_set k l d) = if decide (k ∈ keys d) then keys d else keys d ++ [k].
Proof.
  induction d as [|[k' v] d IH]; cbn [dict_set].
  - rewrite decide_False; [done | apply not_elem_of_nil].
  - destruct (String.eqb_spec k' k) as [->|Hne]; unfold keys in *;
      rewrite !fmap_cons; cbn [fst].
    + rewrite decide_True; [done | left].
    + rewrite IH. destruct (decide (k ∈ d.*1)) as [Hin|Hin].
      * rewrite decide_True; [done | by right].
      * rewrite decide_False; [done |].
        rewrite not_elem_of_cons. split; [congruence | done].
Qed.

Lemma elem_of_dict_set d k l k0 l0 :
  (k0, l0) ∈ dict_set k l d -> (k0 = k /\ l0 = l) \/ (k0, l0) ∈ d.
Proof.
  induction d as [|[k' v] d IH]; simpl.
  - intros H. apply list_elem_of_singleton in H. left. by inversion H.
  - destruct (String.eqb_spec k' k) as [->|Hne]; rewrite !elem_of_cons.
    + intros [[= -> ->] | H]; [by left | by right; right].
    + intros [H | H]; [by right; left |].
      destruct (IH H) as [?|?]; [by left | by right; right].
Qed.

Lemma elem_of_dict_del d k k0 l0 :
  (k0, l0) ∈ dict_del k d <-> k0 <> k /\ (k0, l0) ∈ d.
Proof.
  induction d as [|[k' v] d IH]; simpl.
  - split; [intros H | intros [_ H]]; by apply elem_of_nil in H.
  - destruct (String.eqb_spec k' k) as [->|Hne]; rewrite !elem_of_cons, ?IH.
    + split; [intros [? ?]; auto | intros [? [[= -> ->] | ?]]; done].
    + split.
      * intros [[= -> ->] | [? ?]]; auto.
      * intros [? [? | ?]]; auto.
Qed.

Lemma dict_get_del_eq d k : dict_get k (dict_del k d) = None.
Proof.
  apply dict_get_None. rewrite elem_of_keys. intros [l H].
  apply elem_of_dict_del in H. by destruct H.
Qed.

Lemma dict_get_del_ne d k k0 :
  k0 <> k -> dict_get k0 (dict_del k d) = dict_get k0 d.
Proof.
  intros Hne. induction d as [|[k' v] d IH]; simpl; [done|].
  destruct (String.eqb_spec k' k) as [->|Hne']; simpl.
  - destruct (String.eqb_spec k k0); [congruence | done].
  - by rewrite IH.
Qed.

Lemma dict_del_absent d k : dict_get k d = None -> dict_del k d = d.
Proof.
  induction d as [|[k' v] d IH]; simpl; [done|].
  destruct (String.eqb_spec k' k); [done |]. intros H. by rewrite IH.
Qed.

Lemma elem_of_dict_get d k l :
  NoDup (keys d) -> (k, l) ∈ d -> dict_get k d = Some l.
Proof.
  induction d as [|[k' v] d IH]; simpl.
  - intros _ H. by apply elem_of_nil in H.
  - rewrite NoDup_cons, elem_of_cons. intros [Hk Hd] [[= -> ->] | H].
    + by rewrite String.eqb_refl.
    + destruct (String.eqb_spec k' k) as [->|Hne]; [|auto].
      destruct Hk. apply elem_of_keys. eauto.
Qed.

Lemma NoDup_keys_set d k l : NoDup (keys d) -> NoDup (keys (dict_set k l d)).
Proof.
  intros H. rewrite keys_set. case_decide; [done |].
  apply NoDup_app. split_and!; [done | | apply NoDup_singleton].
  intros x Hx Hx'. apply list_elem_of_singleton in Hx'. by subst.
Qed.

Lemma keys_del d k : keys (dict_del k d) = filter (fun k0 => k0 <> k) (keys d).
Proof.
  induction d as [|[k' v] d IH]; simpl; [done|].
  destruct (String.eqb_spec k' k) as [->|Hne].
  - rewrite filter_cons_False; [done | by intros []].
  - rewrite filter_cons_True by done. simpl. by rewrite IH.
Qed.

Lemma NoDup_keys_del d k : NoDup (keys d) -> NoDup (keys (dict_del k d)).
Proof. intros H. rewrite keys_del. by apply NoDup_filter. Qed.
End DictFacts.

(** ** The read operations only read *)

Section ReadOnly.
Implicit Types (s : State) (ls : list loc).

Lemma get_owner_loop_pure ls s : pure_on (get_owner_loop ls) s.
Proof.
  induction ls as [|l ls IH]; simpl; [eexists; reflexivity|].
  run_monad. destruct (owner (heap s l)); [eexists; reflexivity | apply IH].
Qed.

Lemma find_phone_loop_pure phone ls s : pure_on (find_phone_loop phone ls) s.
Proof.
  induction ls as [|l ls IH]; simpl; [eexists; reflexivity|].
  run_monad. destruct (existsb _ _); [eexists; reflexivity | apply IH].
Qed.

Lemma find_note_by_title_loop_pure t ls s :
  pure_on (find_note_by_title_loop t ls) s.
Proof.
  induction ls as [|l ls IH]; simpl; [eexists; reflexivity|].
  run_monad. destruct (find _ _); [eexists; reflexivity | apply IH].
Qed.

Lemma find_notes_by_tag_loop_pure tag ls acc s :
  pure_on (find_notes_by_tag_loop tag ls acc) s.
Proof.
  revert acc. induction ls as [|l ls IH]; intros acc; simpl; [eexists; reflexivity|].
  run_monad. apply IH.
Qed.

Lemma get_owner_pure s : pure_on get_owner s.
Proof.
  destruct (get_owner_loop_pure (values (data s)) s) as [a Ha].
  exists a. unfold get_owner. run_monad. exact Ha.
Qed.

Lemma find_phone_pure phone s : pure_on (find_phone phone) s.
Proof.
  destruct (find_phone_loop_pure phone (values (data s)) s) as [a Ha].
  exists a. unfold find_phone. run_monad. exact Ha.
Qed.

Lemma find_contact_pure n s : pure_on (find_contact n) s.
Proof. eexists; reflexivity. Qed.

Lemma find_note_by_title_pure t s : pure_on (find_note_by_title t) s.
Proof.
  destruct (find_note_by_title_loop_pure t (values (data s)) s) as [a Ha].
  exists a. unfold find_note_by_title. run_monad. exact Ha.
Qed.

Lemma find_notes_by_tag_pure tag s : pure_on (find_notes_by_tag tag) s.
Proof.
  destruct (find_notes_by_tag_loop_pure tag (values (data s)) [] s)
    as [a Ha].
  exists a. unfold find_notes_by_tag. run_monad. exact Ha.
Qed.

Lemma find_contacts_by_field_loop_pure lower pv nv ga rv f v ls acc s :
  exists res,
    find_contacts_by_field_loop lower pv nv ga rv f v ls acc s = (Ok res, s)
    /\ forall l, l ∈ res <->
         l ∈ acc \/
         (l ∈ ls /\ match_field lower pv nv ga rv f v (heap s l) = true).
Proof.
  revert acc. induction ls as [|l0 ls IH]; intros acc; simpl.
  - eexists. split; [done|]. intros l. split; [by left|].
    intros [?|[H _]]; [done | by apply elem_of_nil in H].
  - run_monad.
    destruct (match_field lower pv nv ga rv f v (heap s l0)) eqn:E.
    + destruct (IH ({[l0]} ∪ acc)) as (res & Hres & Hin).
      exists res. split; [done|]. intros l. rewrite Hin, elem_of_cons.
      rewrite elem_of_union, elem_of_singleton. split.
      * intros [[->|?]|[? ?]]; auto.
      * intros [?|[[->|?] ?]]; auto.
    + destruct (IH acc) as (res & Hres & Hin).
      exists res. split; [done|]. intros l. rewrite Hin, elem_of_cons.
      split.
      * intros [?|[? ?]]; auto.
      * intros [?|[[->|?] ?]]; auto. congruence.
Qed.

Lemma find_contacts_by_field_pure lower pv nv ga rv f v s :
  pure_on (find_contacts_by_field lower pv nv ga rv f v) s.
Proof.
  destruct (find_contacts_by_field_loop_pure lower pv nv ga rv f v
              (values (data s)) ∅ s) as (res & Hres & _).
  exists (elements res). unfold find_contacts_by_field. run_monad.
  by rewrite Hres.
Qed.
End ReadOnly.

Create HintDb read_only.
#[global] Hint Resolve get_owner_pure find_phone_pure find_contact_pure
  find_note_by_title_pure find_notes_by_tag_pure find_contacts_by_field_pure
  : read_only.

(** C10: [get_owner], [find_phone], [find_contact] and [find_notes_by_tag]
    only read: after the call the directory is the one before the call --
    same keys, same records under them, same iteration order (and the
    records themselves are untouched as well). *)
Theorem read_operations_leave_entries_unchanged (s : State)
    (phone name tag : string) :
  after get_owner s = s /\
  after (find_phone phone) s = s /\
  after (find_contact name) s = s /\
  after (find_notes_by_tag tag) s = s.
Proof.
  split_and!; eapply pure_on_result; eauto with read_only.
Qed.

(** ** Mutations of the mapping: [add_record], [delete], [update_name]

    The spec's failure names stand for Python exceptions: [InvalidRecord]
    is the [ValueError] of [add_record]; [NotFound] is the [ValueError] of
    [delete] and the [KeyError] that [dict.pop] raises in [update_name]. *)

Lemma update_name_absent (refuses : entity) (s : State) (old new : string) :
  dict_get old (data s) = None ->
  update_name refuses old new s = (Raise (KeyError old), s).
Proof.
  intros H. unfold update_name, dict_pop. run_monad. by rewrite H.
Qed.

(** The record accepts the new name: the entry is re-keyed and the record
    renamed. *)
Lemma update_name_accepted (refuses : entity) (s : State) (old new : string)
    (l : loc) :
  dict_get old (data s) = Some l ->
  refuses (heap s l) new = None ->
  update_name refuses old new s =
    (Ok NameUpdated,
     mkState (<[l := set_name new (heap s l)]> (heap s))
       (dict_set new l (dict_del old (data s)))).
Proof.
  intros H Hr.
  unfold update_name, dict_pop, dict_setitem, dict_getitem, edit_name.
  run_monad. rewrite H. cbn [fst snd heap data].
  rewrite dict_get_set_eq. cbn [fst snd heap data]. by rewrite Hr.
Qed.

(** The record refuses the new name: its exception reaches the caller
    with the entry already re-keyed and the record as it was. *)
Lemma update_name_refused (refuses : entity) (s : State) (old new : string)
    (l : loc) (e : exn) :
  dict_get old (data s) = Some l ->
  refuses (heap s l) new = Some e ->
  update_name refuses old new s =
    (Raise e, mkState (heap s) (dict_set new l (dict_del old (data s)))).
Proof.
  intros H Hr.
  unfold update_name, dict_pop, dict_setitem, dict_getitem, edit_name.
  run_monad. rewrite H. cbn [fst snd heap data].
  rewrite dict_get_set_eq. cbn [fst snd heap data]. by rewrite Hr.
Qed.

(** Either way the mapping is re-keyed, and the outcome is the record's. *)
Lemma update_name_present (refuses : entity) (s : State) (old new : string)
    (l : loc) :
  dict_get old (data s) = Some l ->
  data (after (update_name refuses old new) s)
    = dict_set new l (dict_del old (data s)) /\
  result (update_name refuses old new) s
    = match refuses (heap s l) new with
      | Some e => Raise e
      | None => Ok NameUpdated
      end.
Proof.
  intros H. unfold result, after.
  destruct (refuses (heap s l) new) as [e|] eqn:Hr.
  - by rewrite (update_name_refused _ _ _ _ _ _ H Hr).
  - by rewrite (update_name_accepted _ _ _ _ _ H Hr).
Qed.

(** C3: renaming a name that is not a key fails with the not-found
    exception ([KeyError], from [self.data.pop(name)]), leaves the state as
    it was, and so creates no entry under the new name. *)
Theorem update_name_absent_fails (refuses : entity) (s : State)
    (old new : string) :
  dict_get old (data s) = None ->
  result (update_name refuses old new) s = Raise (KeyError old) /\
  after (update_name refuses old new) s = s /\
  dict_get new (data (after (update_name refuses old new) s))
    = dict_get new (data s).
Proof.
  intros H. unfold result, after. by rewrite (update_name_absent _ _ _ _ H).
Qed.

Lemma add_record_ok (s : State) (l : loc) :
  name (heap s l) <> EmptyString ->
  add_record (PyRecord l) s =
    (Ok tt, mkState (heap s) (dict_set (name (heap s l)) l (data s))).
Proof.
  intros H. unfold add_record. run_monad.
  by destruct (String.eqb_spec (name (heap s l)) EmptyString).
Qed.

Lemma add_record_empty (s : State) (l : loc) :
  name (heap s l) = EmptyString ->
  add_record (PyRecord l) s = (Raise ValueError, s).
Proof.
  intros H. unfold add_record. run_monad.
  by destruct (String.eqb_spec (name (heap s l)) EmptyString).
Qed.

(** C5: [add_record] raises [ValueError] for a value that is not a
    [Record] and for a record whose name is empty, and the state is then
    unchanged; otherwise it succeeds and the entry under the record's name
    is this record: an existing key keeps its place and has its value
    replaced, a new key is appended, every other key is as before. *)
Theorem add_record_rejects_or_inserts (s : State) :
  (result (add_record PyOther) s = Raise ValueError /\
   after (add_record PyOther) s = s) /\
  (forall l, name (heap s l) = EmptyString ->
     result (add_record (PyRecord l)) s = Raise ValueError /\
     after (add_record (PyRecord l)) s = s) /\
  (forall l, name (heap s l) <> EmptyString ->
     let n := name (heap s l) in
     let s' := after (add_record (PyRecord l)) s in
     result (add_record (PyRecord l)) s = Ok tt /\
     heap s' = heap s /\
     data s' = dict_set n l (data s) /\
     dict_get n (data s') = Some l /\
     (forall k, k <> n -> dict_get k (data s') = dict_get k (data s)) /\
     keys (data s') =
       if decide (n ∈ keys (data s)) then keys (data s)
       else keys (data s) ++ [n]).
Proof.
  split_and!.
  - done.
  - done.
  - intros l H. unfold result, after. by rewrite (add_record_empty _ _ H).
  - intros l H n s'. subst n s'. unfold result, after.
    rewrite (add_record_ok _ _ H). cbn [fst snd heap data].
    split_and!; auto using dict_get_set_eq, dict_get_set_ne, keys_set.
Qed.

Lemma delete_present (s : State) (n : string) :
  dict_get n (data s) <> None ->
  delete n s =
    (Ok "Contact deleted."%string, mkState (heap s) (dict_del n (data s))).
Proof.
  intros H. unfold delete. run_monad. by destruct (dict_get n (data s)).
Qed.

(** C6: [delete] removes the entry of a present name -- looking the name
    up afterwards gives [None], the other entries stay -- and raises
    [ValueError] for an absent name, leaving the state as it was.  In
    particular a name that was just added can be deleted and is then no
    longer found. *)
Theorem delete_removes_entry_or_fails (s : State) (n : string) :
  (dict_get n (data s) <> None ->
     let s' := after (delete n) s in
     result (delete n) s = Ok "Contact deleted."%string /\
     s' = mkState (heap s) (dict_del n (data s)) /\
     result (find_contact n) s' = Ok None /\
     (forall k, k <> n ->
        result (find_contact k) s' = result (find_contact k) s)) /\
  (dict_get n (data s) = None ->
     result (delete n) s = Raise ValueError /\ after (delete n) s = s) /\
  (forall l, name (heap s l) = n -> n <> EmptyString ->
     let s1 := after (add_record (PyRecord l)) s in
     result (delete n) s1 = Ok "Contact deleted."%string /\
     result (find_contact n) (after (delete n) s1) = Ok None).
Proof.
  assert (Hdel : forall s0, dict_get n (data s0) <> None ->
            result (delete n) s0 = Ok "Contact deleted."%string /\
            after (delete n) s0 = mkState (heap s0) (dict_del n (data s0)) /\
            result (find_contact n) (after (delete n) s0) = Ok None).
  { intros s0 H. unfold result, after. rewrite (delete_present _ _ H).
    cbn [fst snd]. split_and!; [done..|].
    unfold find_contact. run_monad. by rewrite dict_get_del_eq. }
  split_and!.
  - intros H s'. destruct (Hdel s H) as (? & Hs' & ?). split_and!; [done..|].
    intros k Hk. subst s'. rewrite Hs'. unfold find_contact. run_monad.
    by rewrite dict_get_del_ne.
  - intros H. unfold delete. run_monad. by rewrite H.
  - intros l <- Hn s1.
    assert (dict_get (name (heap s l)) (data s1) <> None) as Hin.
    { subst s1. unfold after. rewrite (add_record_ok _ _ Hn). cbn [snd data].
      by rewrite dict_get_set_eq. }
    destruct (Hdel s1 Hin) as (? & _ & ?). done.
Qed.

(** ** The order on names and the stable sort *)

Section StringOrder.
Import OrderedTypeEx.

Lemma str_lt_alt a b : str_lt a b <-> String_as_OT.lt a b.
Proof.
  unfold str_lt, String.ltb. rewrite <- String_as_OT.cmp_lt.
  unfold String_as_OT.cmp. destruct (String.compare a b); split; congruence.
Qed.

Lemma str_le_alt a b : str_le a b <-> a = b \/ str_lt a b.
Proof.
  unfold str_le, str_lt, String.leb, String.ltb.
  destruct (String.compare a b) eqn:E.
  - apply String.compare_eq_iff in E. tauto.
  - tauto.
  - split; [done|]. intros [->|?]; [|done].
    pose proof (String.compare_antisym b b) as E'.
    rewrite E in E'. discriminate E'.
Qed.

Lemma str_lt_irrefl a : ~ str_lt a a.
Proof.
  rewrite str_lt_alt. intros H. by apply String_as_OT.lt_not_eq in H.
Qed.

Lemma str_lt_trans a b c : str_lt a b -> str_lt b c -> str_lt a c.
Proof. rewrite !str_lt_alt. apply String_as_OT.lt_trans. Qed.

Lemma str_lt_le a b : str_lt a b -> str_le a b.
Proof. rewrite str_le_alt. auto. Qed.

Lemma str_le_refl a : str_le a a.
Proof. rewrite str_le_alt. auto. Qed.

Lemma str_le_trans a b c : str_le a b -> str_le b c -> str_le a c.
Proof.
  rewrite !str_le_alt. intros [->|H1] [->|H2]; eauto using str_lt_trans.
Qed.

Lemma str_le_neq_lt a b : str_le a b -> a <> b -> str_lt a b.
Proof. rewrite str_le_alt. intros [->|?] ?; done. Qed.

Lemma str_leb_false a b : String.leb a b = false -> str_le b a.
Proof.
  intros H. destruct (String.leb_total a b) as [H'|H']; [congruence|done].
Qed.
End StringOrder.

Section SortedFacts.
Context {A : Type} (key : A -> string).

Lemma insert_sorted_Permutation x l :
  Permutation (insert_sorted key x l) (x :: l).
Proof.
  induction l as [|y l IH]; simpl; [done|].
  destruct (String.leb (key x) (key y)); [done|].
  rewrite IH. apply perm_swap.
Qed.

Lemma sorted_Permutation l : Permutation (sorted key l) l.
Proof.
  induction l as [|x l IH]; simpl; [done|].
  rewrite insert_sorted_Permutation. by constructor.
Qed.

Lemma insert_sorted_StronglySorted x l :
  StronglySorted (key_le key) l -> StronglySorted (key_le key) (insert_sorted key x l).
Proof.
  induction l as [|y l IH]; simpl; intros Hl.
  - repeat constructor.
  - destruct (String.leb (key x) (key y)) eqn:E.
    + constructor; [done|]. apply StronglySorted_inv in Hl as [_ Hy].
      constructor; [done|].
      eapply Forall_impl; [exact Hy|]. intros z Hz.
      unfold key_le in *. eauto using str_le_trans.
    + apply StronglySorted_inv in Hl as [Hl Hy].
      constructor; [auto|].
      rewrite (insert_sorted_Permutation x l).
      constructor; [|done]. by apply str_leb_false.
Qed.

Lemma sorted_StronglySorted l : StronglySorted (key_le key) (sorted key l).
Proof.
  induction l as [|x l IH]; simpl; [constructor|].
  by apply insert_sorted_StronglySorted.
Qed.

(** Sorting a list that is already in ascending order returns it as it
    is (the sort is stable, so equal keys are no exception). *)
Lemma sorted_id l : StronglySorted (key_le key) l -> sorted key l = l.
Proof.
  induction 1 as [|x l Hl IH Hx]; simpl; [done|].
  rewrite IH. destruct l as [|y l]; simpl; [done|].
  apply Forall_cons in Hx as [Hxy _]. unfold key_le, str_le in Hxy.
  by rewrite Hxy.
Qed.

(** The sort is stable: records with the same key keep their order. *)
Lemma insert_sorted_stable k x l :
  List.filter (fun y => String.eqb (key y) k) (insert_sorted key x l) =
  List.filter (fun y => String.eqb (key y) k) (x :: l).
Proof.
  induction l as [|y l IH]; [done|]. cbn [insert_sorted].
  destruct (String.leb (key x) (key y)) eqn:E; [done|].
  cbn [List.filter] in *. rewrite IH.
  destruct (String.eqb_spec (key x) k) as [Hx|Hx];
    destruct (String.eqb_spec (key y) k) as [Hy|Hy]; try done.
  rewrite Hx, Hy in E. unfold String.leb in E.
  pose proof (String.compare_antisym k k) as E'.
  destruct (String.compare k k); done.
Qed.

Lemma sorted_stable k l :
  List.filter (fun y => String.eqb (key y) k) (sorted key l) =
  List.filter (fun y => String.eqb (key y) k) l.
Proof.
  induction l as [|x l IH]; [done|]. cbn [sorted].
  rewrite insert_sorted_stable. cbn [List.filter]. by rewrite IH.
Qed.

Lemma key_lt_le_StronglySorted l :
  StronglySorted (key_lt key) l -> StronglySorted (key_le key) l.
Proof.
  induction 1 as [|x l Hl IH Hx]; constructor; [done|].
  eapply Forall_impl; [exact Hx|]. intros y. apply str_lt_le.
Qed.
End SortedFacts.

(** ** The key invariant and [sort_records] *)

Section Build.
Variable h : loc -> Record.
Local Abbreviation nm := (fun l : loc => name (h l)).

Lemma StronglySorted_fmap_inv {A B} (f : A -> B) (R : relation B) l :
  StronglySorted R (f <$> l) -> StronglySorted (fun x y => R (f x) (f y)) l.
Proof.
  induction l as [|x l IH]; csimpl; [constructor|].
  intros [Hx Hl]%StronglySorted_cons. constructor; [auto|].
  by rewrite Forall_fmap in Hx.
Qed.

Lemma dict_set_fresh d k l : k ∉ keys d -> dict_set k l d = d ++ [(k, l)].
Proof.
  induction d as [|[k' v] d IH]; cbn [dict_set]; [done|].
  unfold keys in *. rewrite fmap_cons, not_elem_of_cons. cbn [fst].
  intros [Hne Hk]. destruct (String.eqb_spec k' k); [congruence|].
  by rewrite IH.
Qed.

Lemma build_sorted ls acc :
  StronglySorted (key_le nm) ls ->
  StronglySorted str_lt (keys acc) ->
  (forall k l, (k, l) ∈ acc -> nm l = k) ->
  (forall k l, k ∈ keys acc -> l ∈ ls -> str_le k (nm l)) ->
  StronglySorted str_lt (keys (build h ls acc)) /\
  (forall k l, (k, l) ∈ build h ls acc ->
     nm l = k /\ (l ∈ ls \/ (k, l) ∈ acc)).
Proof.
  revert acc. induction ls as [|l0 ls IH]; intros acc Hls Hacc Hnm Hle.
  - simpl. split; [done|]. intros k l H. split; [by apply Hnm | by right].
  - apply StronglySorted_cons in Hls as [Hl0 Hls].
    rewrite Forall_forall in Hl0.
    change (build h (l0 :: ls) acc)
      with (build h ls (dict_set (nm l0) l0 acc)).
    destruct (IH (dict_set (nm l0) l0 acc)) as [Hs He]; [done | | | |].
    + rewrite keys_set. case_decide as Hin; [done|].
      apply StronglySorted_app_2; [|done|repeat constructor].
      intros k1 k2 Hk1 ->%list_elem_of_singleton.
      apply str_le_neq_lt; [apply Hle; [done|left] | congruence].
    + intros k l [[-> ->]|H]%elem_of_dict_set; [done | auto].
    + intros k l Hk Hl. rewrite keys_set in Hk.
      assert (k ∈ keys acc \/ k = nm l0) as [Hk'| ->].
      { case_decide; [by left|].
        apply elem_of_app in Hk as [?|?%list_elem_of_singleton]; auto. }
      * apply Hle; [done | by right].
      * by apply Hl0.
    + split; [done|]. intros k l H. destruct (He k l H) as [? [?|H']].
      * split; [done | by left; right].
      * split; [done|].
        apply elem_of_dict_set in H' as [[-> ->]|?]; [left; left | by right].
Qed.

Lemma build_strict ls acc :
  StronglySorted (key_lt nm) ls ->
  (forall l, l ∈ ls -> nm l ∉ keys acc) ->
  build h ls acc = acc ++ (entry_of h <$> ls).
Proof.
  revert acc. induction ls as [|l0 ls IH]; intros acc Hls Hacc.
  - simpl. by rewrite app_nil_r.
  - apply StronglySorted_cons in Hls as [Hl0 Hls].
    rewrite Forall_forall in Hl0.
    change (build h (l0 :: ls) acc)
      with (build h ls (dict_set (nm l0) l0 acc)).
    rewrite dict_set_fresh by (apply Hacc; left).
    rewrite IH; [by rewrite <- app_assoc | done |].
    intros l Hl. unfold keys. rewrite fmap_app, not_elem_of_app.
    split; [apply Hacc; by right|].
    intros Heq%list_elem_of_singleton. cbn [fst] in Heq.
    apply (str_lt_irrefl (nm l0)). apply Hl0 in Hl.
    unfold key_lt in Hl. by rewrite Heq in Hl.
Qed.
End Build.

Lemma Inv_entries (s : State) :
  Inv s -> entry_of (heap s) <$> values (data s) = data s.
Proof.
  unfold Inv, values. induction (data s) as [|[k l] d IH]; [done|].
  intros H. csimpl. rewrite IH.
  - unfold entry_of at 1. cbn [snd]. rewrite (H k l); [done | left].
  - intros k' l' Hin. apply H. by right.
Qed.

Lemma Inv_names (s : State) :
  Inv s -> (fun l => name (heap s l)) <$> values (data s) = keys (data s).
Proof.
  intros H. rewrite <- (Inv_entries s H) at 2. unfold keys.
  rewrite <- list_fmap_compose. done.
Qed.

Lemma sort_records_run (s : State) :
  sort_records s =
    (Ok tt,
     mkState (heap s)
       (build (heap s)
          (sorted (fun l => name (heap s l)) (values (data s))) [])).
Proof. reflexivity. Qed.

Lemma sort_records_sorted (s : State) :
  let s' := after sort_records s in
  StronglySorted str_lt (keys (data s')) /\ Inv s' /\
  (forall l, l ∈ values (data s') -> l ∈ values (data s)).
Proof.
  intros s'. subst s'. unfold after. rewrite sort_records_run. cbn [snd].
  destruct (build_sorted (heap s)
              (sorted (fun l => name (heap s l)) (values (data s))) [])
    as [Hs He].
  - apply sorted_StronglySorted.
  - constructor.
  - intros k l H. by apply elem_of_nil in H.
  - intros k l H. by apply elem_of_nil in H.
  - split_and!; cbn [data heap].
    + done.
    + intros k l H. cbn [data heap] in *. by apply He.
    + intros l [k H]%elem_of_values. apply He in H as [_ [H|H]].
      * by rewrite sorted_Permutation in H.
      * by apply elem_of_nil in H.
Qed.

Lemma sort_records_fixed (s : State) :
  Inv s -> StronglySorted str_lt (keys (data s)) ->
  after sort_records s = s.
Proof.
  intros HI Hs. unfold after. rewrite sort_records_run. cbn [snd].
  assert (StronglySorted (key_lt (fun l => name (heap s l))) (values (data s)))
    as Hv.
  { apply (StronglySorted_fmap_inv (fun l => name (heap s l)) str_lt).
    by rewrite Inv_names. }
  rewrite sorted_id by by apply key_lt_le_StronglySorted.
  rewrite build_strict; [| done | intros; apply not_elem_of_nil].
  rewrite app_nil_l, Inv_entries by done. by destruct s.
Qed.

Lemma key_le_NoDup_lt {A} (key : A -> string) (l : list A) :
  StronglySorted (key_le key) l -> NoDup (key <$> l) ->
  StronglySorted (key_lt key) l.
Proof.
  induction 1 as [|x l Hl IH Hx]; csimpl; [constructor|].
  intros [Hnx Hnd]%NoDup_cons. constructor; [auto|].
  rewrite Forall_forall in *. intros y Hy.
  apply str_le_neq_lt; [by apply Hx|].
  intros Heq. apply Hnx. rewrite Heq. by apply list_elem_of_fmap_2.
Qed.

Lemma str_le_NoDup_lt (ks : list string) :
  StronglySorted str_le ks -> NoDup ks -> StronglySorted str_lt ks.
Proof.
  intros Hs Hn. apply (key_le_NoDup_lt id) in Hs; [|by rewrite list_fmap_id].
  exact Hs.
Qed.

Lemma str_lt_NoDup (ks : list string) : StronglySorted str_lt ks -> NoDup ks.
Proof.
  induction 1 as [|k ks Hs IH Hk]; constructor; [|done].
  rewrite Forall_forall in Hk. intros Hin.
  by apply (str_lt_irrefl k), Hk.
Qed.

Lemma sort_records_Permutation (s : State) :
  Inv s -> NoDup (keys (data s)) ->
  data (after sort_records s) ≡ₚ data s.
Proof.
  intros HI Hn. unfold after. rewrite sort_records_run. cbn [snd data].
  set (nm := fun l => name (heap s l)).
  assert (StronglySorted (key_lt nm) (sorted nm (values (data s)))) as Hs.
  { apply key_le_NoDup_lt; [apply sorted_StronglySorted|].
    rewrite sorted_Permutation. subst nm. by rewrite Inv_names. }
  rewrite build_strict; [| done | intros; apply not_elem_of_nil].
  rewrite app_nil_l, sorted_Permutation. by rewrite Inv_entries.
Qed.

(** C9: [sort_records] always succeeds and leaves a mapping whose keys are
    the record names in strictly ascending lexicographic order; sorting
    again changes nothing; on a directory that satisfies the key invariant
    the result is a reordering of the entries, and a directory already in
    ascending order is left exactly as it is. *)
Theorem sort_records_ascending_idempotent (s : State) :
  let s' := after sort_records s in
  result sort_records s = Ok tt /\
  heap s' = heap s /\
  StronglySorted str_lt (keys (data s')) /\
  Inv s' /\
  after sort_records s' = s' /\
  (Inv s -> NoDup (keys (data s)) -> data s' ≡ₚ data s) /\
  (Inv s -> NoDup (keys (data s)) -> StronglySorted str_le (keys (data s)) ->
   s' = s).
Proof.
  intros s'. destruct (sort_records_sorted s) as (Hs & HI & _).
  fold s' in Hs, HI. split_and!; try done.
  - by apply sort_records_fixed.
  - apply sort_records_Permutation.
  - intros HIs Hn Hle. apply sort_records_fixed; [done|].
    by apply str_le_NoDup_lt.
Qed.

(** ** [delete_note_by_title] and [get_upcoming_birthdays] as state changes *)

Lemma find_title_None t ns :
  find (fun note => String.eqb (title note) t) ns = None <->
  existsb (fun note => String.eqb (title note) t) ns = false.
Proof.
  induction ns as [|n ns IH]; simpl; [done|].
  destruct (String.eqb (title n) t); simpl; [split; discriminate | done].
Qed.

(** [record.notes.remove(note)], for the first [note] with the title,
    removes that very note. *)
Lemma list_remove_found t ns n :
  find (fun note => String.eqb (title note) t) ns = Some n ->
  list_remove n ns = Some (remove_title t ns).
Proof.
  induction ns as [|y ns IH]; simpl; [done|].
  destruct (String.eqb_spec (title y) t) as [Ht|Ht].
  - intros [= ->]. by rewrite decide_True.
  - intros H. rewrite decide_False.
    + by rewrite (IH H).
    + intros ->. apply find_some in H as [_ H].
      by apply String.eqb_eq in H.
Qed.

Lemma delete_note_by_title_loop_run t ls s :
  delete_note_by_title_loop t ls s =
    (Ok tt,
     match find (fun l => has_title t (heap s l)) ls with
     | Some l =>
         mkState
           (<[l := set_notes (remove_title t (notes (heap s l))) (heap s l)]>
              (heap s))
           (data s)
     | None => s
     end).
Proof.
  induction ls as [|l ls IH]; simpl; [done|]. run_monad.
  unfold has_title at 1.
  destruct (find _ (notes (heap s l))) as [n|] eqn:E.
  - rewrite (list_remove_found _ _ _ E).
    assert (existsb (fun note => String.eqb (title note) t) (notes (heap s l))
            = true) as ->; [|done].
    destruct (existsb _ _) eqn:E'; [done|].
    apply find_title_None in E'. congruence.
  - apply find_title_None in E. by rewrite E.
Qed.

Lemma delete_note_by_title_run t s :
  delete_note_by_title t s =
    (Ok tt,
     match find (fun l => has_title t (heap s l)) (values (data s)) with
     | Some l =>
         mkState
           (<[l := set_notes (remove_title t (notes (heap s l))) (heap s l)]>
              (heap s))
           (data s)
     | None => s
     end).
Proof.
  unfold delete_note_by_title. run_monad. apply delete_note_by_title_loop_run.
Qed.

Lemma get_upcoming_birthdays_loop_state today n ls acc s :
  snd (get_upcoming_birthdays_loop today n ls acc s) = s.
Proof.
  revert acc. induction ls as [|l ls IH]; intros acc; simpl; [done|].
  run_monad. destruct (birthday (heap s l)) as [b|]; [|apply IH].
  unfold py_replace_year. run_monad.
  destruct (Date.replace_year b (Date.year today)) as [d|]; [|done].
  destruct (Date.ltb d today).
  - destruct (Date.replace_year d (Date.year today + 1)) as [d'|]; [|done].
    destruct (_ && _); apply IH.
  - destruct (_ && _); apply IH.
Qed.

Lemma get_upcoming_birthdays_state today n s :
  after (get_upcoming_birthdays today n) s = s.
Proof.
  unfold get_upcoming_birthdays. run_monad.
  apply get_upcoming_birthdays_loop_state.
Qed.

(** ** Reachable states and the key invariant *)

Lemma Inv_same_names s h d :
  Inv s -> (forall l, name (h l) = name (heap s l)) ->
  (forall k l, (k, l) ∈ d -> (k, l) ∈ data s) ->
  Inv (mkState h d).
Proof.
  intros HI Hh Hd k l Hin. cbn [heap data] in *. rewrite Hh. auto.
Qed.

Lemma step_wf (refuses : entity) s s' :
  wf s -> step refuses NoRefusedRename s s' -> wf s'.
Proof.
  intros [HI Hn] Hstep.
  destruct Hstep as [s|s o|s p|s n|s n|s today n|s lower pv nv ga rv f v
                    |s|s t|s t|s t|s n n' Hok|s h Hh].
  - by rewrite (proj2 (pure_on_result _ _ (get_owner_pure s))).
  - destruct o as [l|]; [|done].
    destruct (String.eqb_spec (name (heap s l)) EmptyString) as [E|E].
    + unfold after. by rewrite (add_record_empty _ _ E).
    + unfold after. rewrite (add_record_ok _ _ E). cbn [snd]. split.
      * intros k l' [[-> ->]|H]%elem_of_dict_set; [done | by apply HI].
      * by apply NoDup_keys_set.
  - by rewrite (proj2 (pure_on_result _ _ (find_phone_pure p s))).
  - done.
  - destruct (dict_get n (data s)) as [l|] eqn:E.
    + unfold after. rewrite delete_present by congruence. cbn [snd]. split.
      * intros k l' [_ H]%elem_of_dict_del. by apply HI.
      * by apply NoDup_keys_del.
    + unfold delete, after. run_monad. by rewrite E.
  - by rewrite get_upcoming_birthdays_state.
  - by rewrite (proj2 (pure_on_result _ _
                         (find_contacts_by_field_pure lower pv nv ga rv f v s))).
  - destruct (sort_records_sorted s) as (Hs & HI' & _).
    split; [done | by apply str_lt_NoDup].
  - by rewrite (proj2 (pure_on_result _ _ (find_note_by_title_pure t s))).
  - unfold after. rewrite delete_note_by_title_run. cbn [snd].
    destruct (find _ _) as [l|]; [|done]. split; [|done].
    apply (Inv_same_names s); [done | | done].
    intros l'. destruct (decide (l' = l)) as [->|Hne].
    + by rewrite fn_lookup_insert.
    + by rewrite fn_lookup_insert_ne.
  - by rewrite (proj2 (pure_on_result _ _ (find_notes_by_tag_pure t s))).
  - destruct (dict_get n (data s)) as [l|] eqn:E.
    + assert (refuses (heap s l) n' = None) as Hr.
      { destruct (refuses (heap s l) n') as [e|] eqn:Hr; [|done].
        destruct (Hok eq_refl). by exists l, e. }
      unfold after. rewrite (update_name_accepted _ _ _ _ _ E Hr).
      cbn [snd]. split.
      * intros k l' Hin. cbn [heap data] in *.
        apply elem_of_dict_set in Hin as [[-> ->]|Hin].
        { by rewrite fn_lookup_insert. }
        apply elem_of_dict_del in Hin as [Hk Hin].
        rewrite fn_lookup_insert_ne; [by apply HI|].
        intros ->. apply Hk. rewrite <- (HI k l' Hin).
        apply HI. by apply dict_get_Some.
      * by apply NoDup_keys_set, NoDup_keys_del.
    + unfold after. by rewrite (update_name_absent _ _ _ _ E).
  - split; [|done]. by apply (Inv_same_names s).
Qed.

Lemma reachable_wf (refuses : entity) s :
  reachable refuses NoRefusedRename s -> wf s.
Proof.
  induction 1 as [h|s s' _ IH Hstep].
  - split; [|constructor]. intros k l H. by apply elem_of_nil in H.
  - by apply (step_wf refuses s).
Qed.

(** A refused rename breaks the key invariant: the record is stored under
    the new key and still carries its old name. *)
Lemma update_name_refused_not_Inv (refuses : entity) (s : State)
    (old new : string) (l : loc) (e : exn) :
  Inv s -> dict_get old (data s) = Some l -> old <> new ->
  refuses (heap s l) new = Some e ->
  ~ Inv (after (update_name refuses old new) s).
Proof.
  intros HI Hl Hne Hr HI'. unfold after in HI'.
  rewrite (update_name_refused _ _ _ _ _ _ Hl Hr) in HI'. cbn [snd] in HI'.
  apply Hne. rewrite <- (HI old l) by (by apply dict_get_Some).
  apply (HI' new l). cbn [data]. apply dict_get_Some, dict_get_set_eq.
Qed.

(** ** Deleting a note by title *)

Lemma find_None_elem_of {A} (f : A -> bool) (l : list A) :
  find f l = None <-> forall x, x ∈ l -> f x = false.
Proof.
  induction l as [|y l IH]; simpl.
  - split; [intros _ x H; by apply elem_of_nil in H | done].
  - destruct (f y) eqn:E.
    + split; [done|]. intros H. rewrite H in E; [done | left].
    + rewrite IH. split.
      * intros H x [->|?]%elem_of_cons; auto.
      * intros H x Hx. apply H. by right.
Qed.

Lemma find_Some_elem_of {A} (f : A -> bool) (l : list A) x :
  find f l = Some x -> x ∈ l /\ f x = true.
Proof.
  intros [H ?]%find_some. split; [|done]. by apply list_elem_of_In.
Qed.

Lemma remove_title_last t ns :
  (length (List.filter (fun note => String.eqb (title note) t) ns) <= 1)%nat ->
  existsb (fun note => String.eqb (title note) t) (remove_title t ns) = false.
Proof.
  induction ns as [|n ns IH]; simpl; [done|].
  destruct (String.eqb (title n) t) eqn:E; simpl.
  - intros H. destruct (existsb _ ns) eqn:E'; [|done].
    apply existsb_exists in E' as (x & Hx & Hxt).
    assert (In x (List.filter (fun note => String.eqb (title note) t) ns))
      as Hin by (apply filter_In; auto).
    destruct (List.filter _ ns); [done | simpl in H; lia].
  - rewrite E. simpl. apply IH.
Qed.

Lemma delete_note_by_title_no_title t s :
  no_title t s -> delete_note_by_title t s = (Ok tt, s).
Proof.
  intros H. rewrite delete_note_by_title_run.
  by apply find_None_elem_of in H as ->.
Qed.

Lemma delete_note_by_title_unique t s :
  unique_title t s -> no_title t (after (delete_note_by_title t) s).
Proof.
  intros [Hc Hu]. unfold after. rewrite delete_note_by_title_run. cbn [snd].
  destruct (find _ _) as [l|] eqn:E.
  - apply find_Some_elem_of in E as [Hl Ht].
    intros l' Hl'. cbn [heap data] in *.
    destruct (decide (l' = l)) as [->|Hne].
    + rewrite fn_lookup_insert. unfold has_title, set_notes. cbn [notes].
      apply remove_title_last, (Hc l Hl).
    + rewrite fn_lookup_insert_ne by done.
      destruct (has_title t (heap s l')) eqn:E'; [|done].
      destruct Hne. by apply Hu.
  - unfold no_title. by apply find_None_elem_of.
Qed.

(** C8, as amended: [delete_note_by_title] never fails, and it is a no-op
    when no note has the title; when at most one note of the directory
    has the title, a second call in succession leaves the state exactly
    as the first call left it. *)
Theorem delete_note_by_title_idempotent_unique (s : State) (t : string) :
  let s1 := after (delete_note_by_title t) s in
  result (delete_note_by_title t) s = Ok tt /\
  (no_title t s -> s1 = s) /\
  (unique_title t s ->
   result (delete_note_by_title t) s1 = Ok tt /\
   after (delete_note_by_title t) s1 = s1).
Proof.
  intros s1. split_and!.
  - unfold result. by rewrite delete_note_by_title_run.
  - intros H. subst s1. unfold after.
    by rewrite (delete_note_by_title_no_title _ _ H).
  - intros H%delete_note_by_title_unique. fold s1 in H.
    unfold result, after. by rewrite (delete_note_by_title_no_title _ _ H).
Qed.

(** ** Searching by tag *)

Lemma prefix_spec (v s : string) :
  String.prefix v s = true <-> exists q, s = v +:+ q.
Proof.
  revert s. induction v as [|c v IH]; intros s.
  - destruct s; (split; [intros _; eexists; reflexivity | done]).
  - destruct s as [|c' s]; simpl; [split; [done | intros [q [=]]] |].
    destruct (Ascii.ascii_dec c c') as [->|Hne].
    + rewrite IH. split; intros [q Hq]; exists q; [by rewrite Hq|].
      by injection Hq.
    + split; [done | intros [q [= ? ?]]; done].
Qed.

(** [str_contains] is the substring test. *)
Lemma str_contains_spec (v s : string) :
  str_contains v s = true <-> exists p q, s = p +:+ v +:+ q.
Proof.
  induction s as [|c s IH]; cbn [str_contains].
  - rewrite orb_false_r, prefix_spec. split.
    + intros [q Hq]. by exists EmptyString, q.
    + intros ([|c p] & q & Hpq); [by exists q | done].
  - rewrite orb_true_iff, prefix_spec, IH. split.
    + intros [[q Hq]|(p & q & ->)].
      * by exists EmptyString, q.
      * by exists (String c p), q.
    + intros ([|c' p] & q & Hpq).
      * left. by exists q.
      * right. exists p, q. simpl in Hpq. by injection Hpq.
Qed.

Lemma match_tag_spec lower v (item : Record) :
  match_tag lower v item = true <->
  exists note tag, note ∈ notes item /\ tag ∈ tags note /\
                   tag_matches lower v tag.
Proof.
  unfold match_tag, tag_matches. rewrite existsb_exists. split.
  - intros (note & Hn & (tag & Ht & Hc%str_contains_spec)%existsb_exists).
    exists note, tag. by rewrite <- !list_elem_of_In in *.
  - intros (note & tag & Hn & Ht & Hc). exists note.
    rewrite <- list_elem_of_In. split; [done|].
    apply existsb_exists. exists tag. rewrite <- list_elem_of_In.
    split; [done|]. by apply str_contains_spec.
Qed.

(** C7: the search by the field ["tag"] returns, each exactly once, the
    records of the directory that have a note with a tag containing the
    searched text as a substring once both are lower-cased -- and no other
    record.  The order of the result is that of a set. *)
Theorem find_contacts_by_tag_exact lower pv nv ga rv (s : State) (v : string) :
  exists res,
    find_contacts_by_field lower pv nv ga rv "tag" v s = (Ok res, s) /\
    NoDup res /\
    forall l, l ∈ res <->
      l ∈ values (data s) /\
      exists note tag, note ∈ notes (heap s l) /\ tag ∈ tags note /\
                       tag_matches lower v tag.
Proof.
  destruct (find_contacts_by_field_loop_pure lower pv nv ga rv "tag" v
              (values (data s)) ∅ s) as (res & Hres & Hin).
  exists (elements res). split_and!.
  - unfold find_contacts_by_field. run_monad. by rewrite Hres.
  - apply NoDup_elements.
  - intros l. rewrite elem_of_elements, Hin, <- match_tag_spec.
    change (match_field lower pv nv ga rv "tag" v (heap s l))
      with (match_tag lower v (heap s l)).
    split; [intros [H|H]; [by apply elem_of_empty in H | done] | by right].
Qed.

(** ** The birthday window *)

Lemma get_upcoming_birthdays_loop_ok today n ls acc s :
  (forall l b, l ∈ ls -> birthday (heap s l) = Some b ->
               is_Some (delta_days today b)) ->
  get_upcoming_birthdays_loop today n ls acc s =
    (Ok (acc ++ List.filter (fun l => in_window today n (heap s l)) ls), s).
Proof.
  revert acc. induction ls as [|l ls IH]; intros acc H; simpl.
  - by rewrite app_nil_r.
  - assert (forall acc',
              get_upcoming_birthdays_loop today n ls acc' s =
              (Ok (acc' ++
                   List.filter (fun l => in_window today n (heap s l)) ls), s))
      as IH' by (intros; apply IH; intros; eapply H; [by right | done]).
    run_monad. unfold in_window at 1.
    destruct (birthday (heap s l)) as [b|] eqn:Eb; [|apply IH'].
    destruct (H l b) as [delta Hd]; [left | done |]. rewrite Hd.
    unfold delta_days in Hd. unfold py_replace_year. run_monad.
    destruct (Date.replace_year b (Date.year today)) as [d|]; [|done].
    destruct (Date.ltb d today).
    + destruct (Date.replace_year d (Date.year today + 1)) as [d'|]; [|done].
      injection Hd as <-.
      destruct (_ && _); rewrite IH'; [by rewrite <- app_assoc | done].
    + injection Hd as <-.
      destruct (_ && _); rewrite IH'; [by rewrite <- app_assoc | done].
Qed.

Lemma get_upcoming_birthdays_loop_raise today n ls acc s l b :
  l ∈ ls -> birthday (heap s l) = Some b -> delta_days today b = None ->
  get_upcoming_birthdays_loop today n ls acc s = (Raise ValueError, s).
Proof.
  intros Hl Hb Hd. revert acc.
  induction ls as [|l0 ls IH]; intros acc; [by apply elem_of_nil in Hl|].
  simpl. run_monad.
  destruct (birthday (heap s l0)) as [b0|] eqn:Eb0.
  - unfold py_replace_year. run_monad.
    destruct (delta_days today b0) as [delta|] eqn:Ed0; unfold delta_days in Ed0.
    + assert (Hrest : l ∈ ls).
      { apply elem_of_cons in Hl as [->|?]; [|done].
        rewrite Hb in Eb0. injection Eb0 as ->.
        unfold delta_days in Hd. rewrite Hd in Ed0. done. }
      destruct (Date.replace_year b0 (Date.year today)) as [d|]; [|done].
      destruct (Date.ltb d today).
      * destruct (Date.replace_year d (Date.year today + 1)); [|done].
        destruct (_ && _); by apply IH.
      * destruct (_ && _); by apply IH.
    + destruct (Date.replace_year b0 (Date.year today)) as [d|]; [|done].
      destruct (Date.ltb d today); [|done].
      by destruct (Date.replace_year d (Date.year today + 1)).
  - apply IH. apply elem_of_cons in Hl as [->|?]; [congruence | done].
Qed.

(** The window rule of [get_upcoming_birthdays], on a directory all of
    whose birthdays can be projected: the call returns the records, in
    iteration order, whose day count [delta] satisfies [0 <= delta <= n]. *)
Lemma get_upcoming_birthdays_window today n s :
  projectable today s ->
  exists res,
    get_upcoming_birthdays today n s = (Ok res, s) /\
    res = List.filter (fun l => in_window today n (heap s l))
            (values (data s)) /\
    forall l, l ∈ res <->
      l ∈ values (data s) /\
      exists b delta, birthday (heap s l) = Some b /\
                      delta_days today b = Some delta /\
                      0 <= delta <= n.
Proof.
  intros H. eexists. split_and!.
  - unfold get_upcoming_birthdays. run_monad.
    rewrite get_upcoming_birthdays_loop_ok; [by rewrite app_nil_l|].
    intros l b ? ?. by apply (H l b).
  - done.
  - intros l. rewrite list_elem_of_In, filter_In, <- list_elem_of_In.
    unfold in_window. split.
    + intros [Hl Hw]. split; [done|].
      destruct (birthday (heap s l)) as [b|]; [|done].
      destruct (delta_days today b) as [delta|] eqn:Ed; [|done].
      apply andb_true_iff in Hw as [?%Z.leb_le ?%Z.leb_le].
      by exists b, delta.
    + intros [Hl (b & delta & -> & -> & ? & ?)]. split; [done|].
      apply andb_true_iff. by rewrite !Z.leb_le.
Qed.

(** The call raises as soon as one birthday cannot be projected. *)
Lemma get_upcoming_birthdays_raises today n s l b :
  l ∈ values (data s) -> birthday (heap s l) = Some b ->
  delta_days today b = None ->
  get_upcoming_birthdays today n s = (Raise ValueError, s).
Proof.
  intros Hl Hb Hd. unfold get_upcoming_birthdays. run_monad.
  by apply (get_upcoming_birthdays_loop_raise today n _ [] s l b).
Qed.

(** 29 February cannot be projected onto a year that is not a leap year. *)
Lemma delta_days_feb29 today y :
  Date.is_leap (Date.year today) = false ->
  delta_days today (Date.mk y 2 29) = None.
Proof.
  intros H. unfold delta_days, Date.replace_year, Date.valid.
  cbn [Date.year Date.month Date.day]. unfold Date.days_in_month.
  rewrite H. simpl. by rewrite !andb_false_r.
Qed.

(** Any other birthday can be projected: the scan raises for 29 February
    only (and in the year 9999, which has no next year). *)
Lemma days_in_month_other_year y y' m d :
  1 <= d <= Date.days_in_month y m -> ~ (m = 2 /\ d = 29) ->
  d <= Date.days_in_month y' m.
Proof.
  unfold Date.days_in_month. intros Hd Hne.
  destruct (m =? 2) eqn:E2.
  - apply Z.eqb_eq in E2. destruct (Date.is_leap y), (Date.is_leap y'); lia.
  - lia.
Qed.

Lemma replace_year_defined b y :
  Date.valid b = true -> 1 <= y <= 9999 ->
  ~ (Date.month b = 2 /\ Date.day b = 29) ->
  Date.replace_year b y = Some (Date.mk y (Date.month b) (Date.day b)).
Proof.
  unfold Date.replace_year, Date.valid. intros Hv Hy Hne.
  cbn [Date.year Date.month Date.day].
  repeat (apply andb_true_iff in Hv as [Hv ?]).
  rewrite !Z.leb_le in *.
  pose proof (days_in_month_other_year (Date.year b) y (Date.month b)
                (Date.day b)).
  assert (Hok : (1 <=? y) && (y <=? 9999) && (1 <=? Date.month b) &&
                (Date.month b <=? 12) && (1 <=? Date.day b) &&
                (Date.day b <=? Date.days_in_month y (Date.month b)) = true).
  { rewrite !andb_true_iff, !Z.leb_le. lia. }
  by rewrite Hok.
Qed.

Lemma delta_days_defined today b :
  Date.valid b = true -> 1 <= Date.year today < 9999 ->
  ~ (Date.month b = 2 /\ Date.day b = 29) ->
  is_Some (delta_days today b).
Proof.
  intros Hv Hy Hne. unfold delta_days.
  rewrite (replace_year_defined b (Date.year today)) by (done || lia).
  destruct (Date.ltb _ today); [|done].
  unfold Date.replace_year. cbn [Date.year Date.month Date.day].
  pose proof (replace_year_defined b (Date.year today + 1) Hv) as H.
  unfold Date.replace_year in H. cbn [Date.year Date.month Date.day] in H.
  rewrite H by (done || lia). done.
Qed.

Example book_data :
  data Samples.book = [("Bob"%string, Samples.bob_ref); ("Alice"%string, Samples.alice_ref)].
Proof. reflexivity. Qed.

Example book_owner : result get_owner Samples.book = Ok (Some Samples.alice_ref).
Proof. reflexivity. Qed.

Example book_upcoming_5 :
  result (get_upcoming_birthdays (Date.mk 2023 6 15) 5) Samples.book
  = Ok [Samples.alice_ref].
Proof. reflexivity. Qed.

Example book_upcoming_4 :
  result (get_upcoming_birthdays (Date.mk 2023 6 15) 4) Samples.book = Ok [].
Proof. reflexivity. Qed.

Example book_upcoming_10 :
  result (get_upcoming_birthdays (Date.mk 2023 6 15) 10) Samples.book
  = Ok [Samples.bob_ref; Samples.alice_ref].
Proof. reflexivity. Qed.

Example book_upcoming_wraps :
  result (get_upcoming_birthdays (Date.mk 2023 12 30) 180) Samples.book
  = Ok [Samples.bob_ref; Samples.alice_ref].
Proof. reflexivity. Qed.

Example leap_book_2023 :
  result (get_upcoming_birthdays (Date.mk 2023 6 15) 7) Samples.leap_book
  = Raise ValueError.
Proof. reflexivity. Qed.

Example leap_book_2024_before :
  result (get_upcoming_birthdays (Date.mk 2024 2 22) 7) Samples.leap_book
  = Ok [Samples.luca_ref].
Proof. reflexivity. Qed.

Example leap_book_2024_after :
  result (get_upcoming_birthdays (Date.mk 2024 6 15) 7) Samples.leap_book
  = Raise ValueError.
Proof. reflexivity. Qed.

Example book_tag_work :
  result (find_contacts_by_field ascii_lower
            (fun p => Samples.plain_view (value p))
            (fun n => Samples.plain_view (content n))
            (fun _ _ => None) (fun _ => []) "tag" "work") Samples.book
  = Ok [Samples.bob_ref].
Proof. vm_compute. reflexivity. Qed.

Example book_rename :
  let s := after (update_name MoreSamples.named "Alice" "Alicia")
             Samples.book in
  result (find_contact "Alice") s = Ok None /\
  result (find_contact "Alicia") s = Ok (Some Samples.alice_ref) /\
  name (heap s Samples.alice_ref) = "Alicia"%string.
Proof. vm_compute. done. Qed.

Example book_sorted :
  after sort_records Samples.book = Samples.sorted_book.
Proof. reflexivity. Qed.

(** ** The birthday scan on a 29 February *)

(** C2, at the input where the code departs from it: on 15 June 2023,
    Alice's birthday (20 June) is 5 days away, so the window of 5 days
    should include her; but the directory also holds a contact born on
    29 February, [birthday.replace(year=2023)] raises [ValueError] for
    that contact, and the call returns no list at all. *)
Theorem upcoming_birthdays_lost_beside_leap_day :
  let today := Date.mk 2023 6 15 in
  Samples.alice_ref ∈ values (data Samples.mixed_book) /\
  birthday (heap Samples.mixed_book Samples.alice_ref)
    = Some (Date.mk 1988 6 20) /\
  delta_days today (Date.mk 1988 6 20) = Some 5 /\
  result (get_upcoming_birthdays today 5) Samples.mixed_book
    = Raise ValueError.
Proof.
  split_and!; [left | reflexivity..].
Qed.


(** ** Instances on the sample directories *)

Lemma book_reachable (refuses : entity) (hist : history) :
  reachable refuses hist Samples.book.
Proof.
  unfold Samples.book.
  eapply reachable_step; [eapply reachable_step|];
    [apply reachable_empty | apply step_add_record..].
Defined.

Lemma book_wf : wf Samples.book.
Proof.
  exact (reachable_wf MoreSamples.any_name _
           (book_reachable MoreSamples.any_name NoRefusedRename)).
Defined.

(** C1, at the input where the code departs from it.  The record class
    refuses the empty name, as [add_record] does.  In the directory of
    Bob and Alice, which is reachable and satisfies the invariant,
    [update_name("Bob", new_name)] with the empty name re-keys the mapping
    first; [edit_name] then raises, and the [ValueError] reaches the
    caller with Bob stored under the empty key and still named "Bob": the
    state has changed on a failure and the key is no longer the name of
    its record.  A following [add_record] of Bob stores him a second
    time. *)
Theorem update_name_refused_breaks_key_invariant :
  let s' := after (update_name MoreSamples.named "Bob" EmptyString)
              Samples.book in
  reachable MoreSamples.named AnyCall Samples.book /\
  Inv Samples.book /\
  result (update_name MoreSamples.named "Bob" EmptyString) Samples.book
    = Raise ValueError /\
  data s' = [("Alice"%string, Samples.alice_ref);
             (EmptyString, Samples.bob_ref)] /\
  name (heap s' Samples.bob_ref) = "Bob"%string /\
  reachable MoreSamples.named AnyCall s' /\
  ~ Inv s' /\
  s' <> Samples.book /\
  data (after (add_record (PyRecord Samples.bob_ref)) s')
    = [("Alice"%string, Samples.alice_ref); (EmptyString, Samples.bob_ref);
       ("Bob"%string, Samples.bob_ref)].
Proof.
  intros s'. split_and!.
  - apply book_reachable.
  - apply book_wf.
  - reflexivity.
  - reflexivity.
  - reflexivity.
  - eapply reachable_step; [apply book_reachable|].
    apply step_update_name. discriminate.
  - apply (update_name_refused_not_Inv MoreSamples.named Samples.book "Bob"
             EmptyString Samples.bob_ref ValueError);
      [apply book_wf | reflexivity | discriminate | reflexivity].
  - intros H. apply (f_equal data) in H. vm_compute in H. discriminate H.
  - reflexivity.
Qed.

Lemma update_name_absent_fails_witness :
  result (update_name MoreSamples.named "Carol" "Caroline") Samples.book
    = Raise (KeyError "Carol") /\
  after (update_name MoreSamples.named "Carol" "Caroline") Samples.book
    = Samples.book /\
  dict_get "Caroline"
    (data (after (update_name MoreSamples.named "Carol" "Caroline")
             Samples.book))
    = dict_get "Caroline" (data Samples.book).
Proof.
  apply (update_name_absent_fails MoreSamples.named Samples.book "Carol"
           "Caroline").
  reflexivity.
Defined.

Lemma add_record_rejects_or_inserts_witness :
  (result (add_record (PyRecord 3%positive)) Samples.book = Raise ValueError /\
   after (add_record (PyRecord 3%positive)) Samples.book = Samples.book) /\
  dict_get "Luca"
    (data (after (add_record (PyRecord Samples.luca_ref)) Samples.book))
    = Some Samples.luca_ref.
Proof.
  destruct (add_record_rejects_or_inserts Samples.book) as (_ & Hempty & Hadd).
  split.
  - apply Hempty. reflexivity.
  - apply (Hadd Samples.luca_ref). vm_compute. discriminate.
Defined.

Lemma delete_removes_entry_or_fails_witness :
  result (find_contact "Bob") (after (delete "Bob") Samples.book) = Ok None /\
  after (delete "Carol") Samples.book = Samples.book /\
  result (find_contact "Luca")
    (after (delete "Luca")
       (after (add_record (PyRecord Samples.luca_ref)) Samples.book))
    = Ok None.
Proof.
  split_and!.
  - apply (proj1 (delete_removes_entry_or_fails Samples.book "Bob")).
    vm_compute. discriminate.
  - apply (proj1 (proj2 (delete_removes_entry_or_fails Samples.book "Carol"))).
    reflexivity.
  - apply (proj2 (proj2 (delete_removes_entry_or_fails Samples.book "Luca"))
             Samples.luca_ref); [reflexivity | discriminate].
Defined.

Lemma book_unique_shopping : unique_title "shopping" Samples.book.
Proof.
  assert (Hv : forall l, l ∈ values (data Samples.book) ->
                 l = Samples.bob_ref \/ l = Samples.alice_ref).
  { intros l Hl. change (l ∈ [Samples.bob_ref; Samples.alice_ref]) in Hl.
    apply elem_of_cons in Hl as [?|Hl]; [by left|].
    apply elem_of_cons in Hl as [?|Hl]; [by right|].
    by apply elem_of_nil in Hl. }
  split.
  - intros l [->| ->]%Hv; vm_compute; lia.
  - intros l1 l2 [->| ->]%Hv [->| ->]%Hv; vm_compute; congruence.
Defined.

Lemma book_no_holiday : no_title "holiday" Samples.book.
Proof.
  intros l Hl. change (l ∈ [Samples.bob_ref; Samples.alice_ref]) in Hl.
  apply elem_of_cons in Hl as [->|Hl]; [reflexivity|].
  apply elem_of_cons in Hl as [->|Hl]; [reflexivity|].
  by apply elem_of_nil in Hl.
Defined.

Lemma delete_note_by_title_idempotent_unique_witness :
  let s1 := after (delete_note_by_title "shopping") Samples.book in
  after (delete_note_by_title "holiday") Samples.book = Samples.book /\
  result (delete_note_by_title "shopping") s1 = Ok tt /\
  after (delete_note_by_title "shopping") s1 = s1.
Proof.
  split.
  - apply (proj1 (proj2
             (delete_note_by_title_idempotent_unique Samples.book "holiday"))).
    exact book_no_holiday.
  - apply (proj2 (proj2
             (delete_note_by_title_idempotent_unique Samples.book "shopping"))).
    exact book_unique_shopping.
Defined.

(** C8, as stated, fails when two notes share the title: Bob and Alice
    each have a note titled "todo"; the first call removes Bob's, the
    second call goes on to remove Alice's. *)
Lemma delete_note_by_title_twice_counterexample :
  let once := after (delete_note_by_title "todo") Samples.book in
  let twice := after (delete_note_by_title "todo") once in
  notes (heap once Samples.alice_ref)
    = [mkNote "todo" "water the plants" ["home"]] /\
  notes (heap twice Samples.alice_ref) = [] /\
  twice <> once.
Proof.
  split_and!; [reflexivity | reflexivity |].
  intros H. apply (f_equal (fun s => notes (heap s Samples.alice_ref))) in H.
  vm_compute in H. discriminate H.
Qed.

Lemma sorted_book_Inv : Inv Samples.sorted_book.
Proof.
  intros k l Hin.
  apply elem_of_cons in Hin as [[= -> ->]|Hin]; [reflexivity|].
  apply elem_of_cons in Hin as [[= -> ->]|Hin]; [reflexivity|].
  by apply elem_of_nil in Hin.
Defined.

Lemma sort_records_ascending_idempotent_witness :
  data (after sort_records Samples.book) ≡ₚ data Samples.book /\
  after sort_records Samples.sorted_book = Samples.sorted_book.
Proof.
  split.
  - destruct (sort_records_ascending_idempotent Samples.book)
      as (_ & _ & _ & _ & _ & Hperm & _).
    apply Hperm; apply book_wf.
  - destruct (sort_records_ascending_idempotent Samples.sorted_book)
      as (_ & _ & _ & _ & _ & _ & Hfix).
    apply Hfix.
    + exact sorted_book_Inv.
    + apply (bool_decide_unpack _). vm_compute. reflexivity.
    + repeat constructor.
Defined.

(** * Further properties of the methods *)

(** ** First-match scans *)

Lemma find_first {A} (f : A -> bool) (l : list A) (x : A) :
  find f l = Some x ->
  exists pre post,
    l = pre ++ x :: post /\ f x = true /\ forall y, y ∈ pre -> f y = false.
Proof.
  induction l as [|y l IH]; simpl; [done|].
  destruct (f y) eqn:E.
  - intros [= ->]. exists [], l. split_and!; [done | done |].
    intros z Hz. by apply elem_of_nil in Hz.
  - intros (pre & post & -> & Hx & Hpre)%IH.
    exists (y :: pre), post. split_and!; [done | done |].
    intros z [->|Hz]%elem_of_cons; auto.
Qed.

Lemma get_owner_loop_find ls s :
  get_owner_loop ls s = (Ok (find (fun l => owner (heap s l)) ls), s).
Proof.
  induction ls as [|l ls IH]; simpl; [done|]. run_monad.
  by destruct (owner (heap s l)).
Qed.

Lemma find_phone_loop_find phone ls s :
  find_phone_loop phone ls s = (Ok (find (has_phone phone ∘ heap s) ls), s).
Proof.
  induction ls as [|l ls IH]; simpl; [done|]. run_monad.
  unfold has_phone at 1. by destruct (existsb _ _).
Qed.

Lemma find_note_by_title_loop_find t ls s :
  find_note_by_title_loop t ls s =
    (Ok (match find (fun l => has_title t (heap s l)) ls with
         | Some l =>
             find (fun note => String.eqb (title note) t) (notes (heap s l))
         | None => None
         end), s).
Proof.
  induction ls as [|l ls IH]; simpl; [done|]. run_monad.
  unfold has_title at 1.
  destruct (find _ (notes (heap s l))) as [n|] eqn:E.
  - destruct (existsb _ _) eqn:E'; [by rewrite E|].
    apply find_title_None in E'. congruence.
  - apply find_title_None in E. by rewrite E.
Qed.

(** X1: [get_owner] never fails; it returns the first record, in the
    iteration order of the directory, flagged as owner -- every record
    before it is not an owner -- and [None] exactly when no record of the
    directory is flagged. *)
Theorem get_owner_first_owner (s : State) :
  match result get_owner s with
  | Ok (Some l) =>
      exists pre post,
        values (data s) = pre ++ l :: post /\
        owner (heap s l) = true /\
        forall l', l' ∈ pre -> owner (heap s l') = false
  | Ok None => forall l, l ∈ values (data s) -> owner (heap s l) = false
  | Raise _ => False
  end.
Proof.
  unfold result, get_owner. run_monad. rewrite get_owner_loop_find.
  cbn [fst]. destruct (find _ _) as [l|] eqn:E.
  - by apply find_first in E.
  - by apply find_None_elem_of.
Qed.

(** X2: [find_phone] never fails; it returns the first record, in
    iteration order, one of whose phones has exactly the searched value
    -- later records with the same number are not reported -- and [None]
    exactly when no record of the directory has the number. *)
Theorem find_phone_first_match (s : State) (phone : string) :
  match result (find_phone phone) s with
  | Ok (Some l) =>
      exists pre post,
        values (data s) = pre ++ l :: post /\
        (exists number, number ∈ phones (heap s l) /\ value number = phone) /\
        forall l' number, l' ∈ pre -> number ∈ phones (heap s l') ->
                          value number <> phone
  | Ok None =>
      forall l number, l ∈ values (data s) -> number ∈ phones (heap s l) ->
                       value number <> phone
  | Raise _ => False
  end.
Proof.
  assert (Hyes : forall r, has_phone phone r = true ->
            exists number, number ∈ phones r /\ value number = phone).
  { intros r (number & Hin & Heq)%existsb_exists. exists number.
    apply String.eqb_eq in Heq. by rewrite list_elem_of_In. }
  assert (Hno : forall r number, has_phone phone r = false ->
            number ∈ phones r -> value number <> phone).
  { intros r number Hf Hin Heq.
    assert (has_phone phone r = true); [|congruence].
    apply existsb_exists. exists number. rewrite <- list_elem_of_In.
    split; [done|]. by apply String.eqb_eq. }
  unfold result, find_phone. run_monad. rewrite find_phone_loop_find.
  cbn [fst]. destruct (find _ _) as [l|] eqn:E.
  - apply find_first in E as (pre & post & Hv & Hl & Hpre).
    exists pre, post. split_and!; [done | by apply Hyes |].
    intros l' number Hl' Hin. by apply (Hno (heap s l')), Hin; apply Hpre.
  - intros l number Hl Hin. apply (Hno (heap s l)); [|done].
    by apply (proj1 (find_None_elem_of _ _) E).
Qed.

(** ** Finding and deleting a note by its title *)

Lemma find_title_first t ns n :
  find (fun note => String.eqb (title note) t) ns = Some n ->
  exists pre post,
    ns = pre ++ n :: post /\ title n = t /\ forall m, m ∈ pre -> title m <> t.
Proof.
  intros (pre & post & -> & Hn%String.eqb_eq & Hpre)%find_first.
  exists pre, post. split_and!; [done..|].
  intros m Hm%Hpre. by apply String.eqb_neq.
Qed.

Lemma remove_title_first t pre n post :
  title n = t -> (forall m, m ∈ pre -> title m <> t) ->
  remove_title t (pre ++ n :: post) = pre ++ post.
Proof.
  intros Hn. induction pre as [|m pre IH]; intros Hpre; simpl.
  - by rewrite (proj2 (String.eqb_eq _ _) Hn).
  - rewrite (proj2 (String.eqb_neq _ _)) by (apply Hpre; left).
    rewrite IH; [done|]. intros m' Hm'. apply Hpre. by right.
Qed.

(** X3: [find_note_by_title] never fails; it returns the first note with
    the title of the first record, in iteration order, that has one, and
    [None] exactly when no note of the directory has the title. *)
Theorem find_note_by_title_first (s : State) (t : string) :
  match result (find_note_by_title t) s with
  | Ok (Some n) =>
      exists lpre l lpost pre post,
        values (data s) = lpre ++ l :: lpost /\
        (forall l' m, l' ∈ lpre -> m ∈ notes (heap s l') -> title m <> t) /\
        notes (heap s l) = pre ++ n :: post /\
        title n = t /\
        forall m, m ∈ pre -> title m <> t
  | Ok None =>
      forall l m, l ∈ values (data s) -> m ∈ notes (heap s l) -> title m <> t
  | Raise _ => False
  end.
Proof.
  assert (Hno : forall r m, has_title t r = false -> m ∈ notes r ->
                            title m <> t).
  { intros r m Hf Hin Heq.
    assert (has_title t r = true); [|congruence].
    apply existsb_exists. exists m. rewrite <- list_elem_of_In.
    split; [done|]. by apply String.eqb_eq. }
  unfold result, find_note_by_title. run_monad.
  rewrite find_note_by_title_loop_find. cbn [fst].
  destruct (find _ (values (data s))) as [l|] eqn:E.
  - apply find_first in E as (lpre & lpost & Hv & Hl & Hlpre).
    destruct (find _ (notes (heap s l))) as [n|] eqn:En.
    + apply find_title_first in En as (pre & post & Hns & Hn & Hpre).
      exists lpre, l, lpost, pre, post. split_and!; try done.
      intros l' m Hl' Hm. by apply (Hno (heap s l')), Hm; apply Hlpre.
    + apply find_title_None in En. unfold has_title in Hl. congruence.
  - intros l m Hl Hm. apply (Hno (heap s l)); [|done].
    by apply (proj1 (find_None_elem_of _ _) E).
Qed.

(** X4: [delete_note_by_title] deletes exactly the note that
    [find_note_by_title] returns for the title: that note leaves its
    record's list, the notes around it keep their order, the record's
    other attributes, every other record and the mapping stay as they
    were. *)
Theorem delete_note_by_title_removes_found (s : State) (t : string) (n : Note) :
  result (find_note_by_title t) s = Ok (Some n) ->
  exists l pre post,
    l ∈ values (data s) /\
    notes (heap s l) = pre ++ n :: post /\
    (forall m, m ∈ pre -> title m <> t) /\
    let s' := after (delete_note_by_title t) s in
    result (delete_note_by_title t) s = Ok tt /\
    data s' = data s /\
    heap s' l = set_notes (pre ++ post) (heap s l) /\
    forall l', l' <> l -> heap s' l' = heap s l'.
Proof.
  unfold result, after, find_note_by_title. run_monad.
  rewrite find_note_by_title_loop_find, delete_note_by_title_run.
  cbn [fst snd].
  destruct (find _ (values (data s))) as [l|] eqn:E; [|done].
  intros [= En].
  apply find_Some_elem_of in E as [Hl _].
  apply find_title_first in En as (pre & post & Hns & Hn & Hpre).
  exists l, pre, post. split_and!; try done; cbn [heap data].
  - rewrite fn_lookup_insert, Hns. by rewrite remove_title_first.
  - intros l' Hne. by rewrite fn_lookup_insert_ne.
Qed.

(** ** How the mutations compose *)

Lemma dict_set_set d k l1 l2 :
  dict_set k l2 (dict_set k l1 d) = dict_set k l2 d.
Proof.
  induction d as [|[k' v] d IH]; simpl.
  - by rewrite String.eqb_refl.
  - destruct (String.eqb_spec k' k) as [->|Hne]; simpl.
    + by rewrite String.eqb_refl.
    + destruct (String.eqb_spec k' k); [done | by rewrite IH].
Qed.

(** X5: adding a record under a name that is already taken replaces the
    earlier record and nothing else: adding [l1] and then [l2], two
    records with the same non-empty name, leaves the directory exactly as
    adding [l2] alone does (so adding the same record twice is the same
    as adding it once), and the name then finds [l2]. *)
Theorem add_record_last_wins (s : State) (l1 l2 : loc) :
  name (heap s l1) = name (heap s l2) ->
  name (heap s l2) <> EmptyString ->
  let s' := after (add_record (PyRecord l2))
              (after (add_record (PyRecord l1)) s) in
  result (add_record (PyRecord l2)) (after (add_record (PyRecord l1)) s)
    = Ok tt /\
  s' = after (add_record (PyRecord l2)) s /\
  result (find_contact (name (heap s l2))) s' = Ok (Some l2).
Proof.
  intros Heq Hne s'. subst s'. unfold result, after.
  rewrite (add_record_ok s l1) by congruence. cbn [snd].
  rewrite (add_record_ok _ l2) by done. rewrite (add_record_ok s l2) by done.
  cbn [fst snd heap data]. rewrite Heq, dict_set_set.
  split_and!; [done | done |].
  unfold find_contact. run_monad. by rewrite dict_get_set_eq.
Qed.

Lemma add_record_last_wins_witness :
  after (add_record (PyRecord MoreSamples.junior_ref))
    (after (add_record (PyRecord Samples.bob_ref)) MoreSamples.book1)
  = after (add_record (PyRecord MoreSamples.junior_ref)) MoreSamples.book1.
Proof.
  apply (add_record_last_wins MoreSamples.book1 Samples.bob_ref
           MoreSamples.junior_ref); [reflexivity | discriminate].
Defined.

(** X6: [delete] cannot be repeated: whatever the first call did, a
    second [delete] of the same name raises [ValueError] and changes
    nothing. *)
Theorem delete_twice_raises (s : State) (n : string) :
  let s1 := after (delete n) s in
  result (delete n) s1 = Raise ValueError /\ after (delete n) s1 = s1.
Proof.
  intros s1.
  assert (dict_get n (data s1) = None) as Hgone.
  { subst s1. unfold after.
    destruct (dict_get n (data s)) as [l|] eqn:E.
    - rewrite delete_present by congruence. cbn [snd data].
      apply dict_get_del_eq.
    - unfold delete. run_monad. by rewrite E. }
  unfold result, after, delete. run_monad. by rewrite Hgone.
Qed.

Lemma not_elem_of_keys_del d old new :
  new = old \/ new ∉ keys d -> new ∉ keys (dict_del old d).
Proof.
  rewrite keys_del, list_elem_of_filter. intros [->|H] [? ?]; done.
Qed.

(** X7: when [old] is a key of the directory and the new name is not the
    key of another record -- it is unused, or it is the old name itself --
    [update_name] makes the entry leave its place and reappear under the
    new name at the end of the iteration order, the other entries keeping
    theirs (so renaming a contact to its own name is not a no-op).  The
    mapping is re-keyed in this way whatever the record answers; the call
    returns the record's confirmation, or raises what the record raises. *)
Theorem update_name_moves_last (refuses : entity) (s : State)
    (old new : string) (l : loc) :
  dict_get old (data s) = Some l ->
  new = old \/ new ∉ keys (data s) ->
  data (after (update_name refuses old new) s)
    = dict_del old (data s) ++ [(new, l)] /\
  result (update_name refuses old new) s
    = match refuses (heap s l) new with
      | Some e => Raise e
      | None => Ok NameUpdated
      end.
Proof.
  intros Hl Hnew.
  destruct (update_name_present refuses s old new l Hl) as [-> ->].
  split; [|done]. apply dict_set_fresh. by apply not_elem_of_keys_del.
Qed.

Lemma update_name_moves_last_witness :
  data (after (update_name MoreSamples.named "Bob" "Bob") Samples.book)
    = [("Alice"%string, Samples.alice_ref); ("Bob"%string, Samples.bob_ref)] /\
  data (after (update_name MoreSamples.named "Bob" "Robert") Samples.book)
    = [("Alice"%string, Samples.alice_ref); ("Robert"%string, Samples.bob_ref)].
Proof.
  split.
  - apply (update_name_moves_last MoreSamples.named Samples.book "Bob" "Bob"
             Samples.bob_ref); [reflexivity | by left].
  - apply (update_name_moves_last MoreSamples.named Samples.book "Bob"
             "Robert" Samples.bob_ref); [reflexivity | right].
    apply (bool_decide_unpack _). vm_compute. reflexivity.
Defined.

Lemma elem_of_dict_set_NoDup d k l k0 l0 :
  NoDup (keys d) -> (k0, l0) ∈ dict_set k l d ->
  (k0 = k /\ l0 = l) \/ (k0 <> k /\ (k0, l0) ∈ d).
Proof.
  intros Hn Hin. destruct (decide (k0 = k)) as [->|Hne].
  - left. split; [done|].
    apply elem_of_dict_get in Hin; [|by apply NoDup_keys_set].
    rewrite dict_get_set_eq in Hin. congruence.
  - right. split; [done|].
    apply elem_of_dict_set in Hin as [[? _]|?]; done.
Qed.

Lemma length_dict_del d k l :
  NoDup (keys d) -> dict_get k d = Some l ->
  S (length (dict_del k d)) = length d.
Proof.
  induction d as [|[k' v] d IH]; [done|]. intros Hn.
  unfold keys in Hn. rewrite fmap_cons in Hn.
  apply NoDup_cons in Hn as [Hk' Hn]. cbn [fst] in Hk'.
  cbn [dict_get dict_del]. destruct (String.eqb_spec k' k) as [->|Hne].
  - intros _. cbn [length]. f_equal. rewrite dict_del_absent; [done|].
    by apply dict_get_None.
  - intros H. cbn [length]. f_equal. by apply IH.
Qed.

(** X8: in a directory that satisfies the key invariant, renaming a
    contact onto a different name that another record holds overwrites
    that record without notice: the renamed record is stored under the new
    name, the record that was there is no longer in the directory, and
    the directory has one entry fewer.  The mapping is changed in this way
    whatever the record answers; the call returns the record's
    confirmation, or raises what the record raises. *)
Theorem update_name_overwrites (refuses : entity) (s : State)
    (old new : string) (l l2 : loc) :
  Inv s -> NoDup (keys (data s)) ->
  dict_get old (data s) = Some l ->
  dict_get new (data s) = Some l2 ->
  old <> new ->
  let s' := after (update_name refuses old new) s in
  dict_get new (data s') = Some l /\
  (l2 ∉ values (data s')) /\
  S (length (data s')) = length (data s) /\
  result (update_name refuses old new) s
    = match refuses (heap s l) new with
      | Some e => Raise e
      | None => Ok NameUpdated
      end.
Proof.
  intros HI Hn Hl Hl2 Hne s'. subst s'.
  destruct (update_name_present refuses s old new l Hl) as [-> ->].
  assert (Hl2' : dict_get new (dict_del old (data s)) = Some l2)
    by (by rewrite dict_get_del_ne).
  split_and!; [apply dict_get_set_eq | | | done].
  - intros [k Hin]%elem_of_values.
    apply elem_of_dict_set_NoDup in Hin as [[Hk Heq]|[Hk Hin]];
      [| |by apply NoDup_keys_del].
    + apply Hne. rewrite <- (HI old l), <- (HI new l2);
        [by rewrite Heq | by apply dict_get_Some..].
    + apply elem_of_dict_del in Hin as [_ Hin]. apply Hk.
      rewrite <- (HI k l2 Hin). apply HI. by apply dict_get_Some.
  - rewrite <- (length_dict_del (data s) old l) by done. f_equal.
    assert (keys (dict_set new l (dict_del old (data s)))
            = keys (dict_del old (data s))) as Hkeys.
    { rewrite keys_set. rewrite decide_True; [done|].
      apply elem_of_keys. exists l2. by apply dict_get_Some. }
    apply (f_equal length) in Hkeys. unfold keys in Hkeys.
    by rewrite !length_fmap in Hkeys.
Qed.

Lemma update_name_overwrites_witness :
  let s' := after (update_name MoreSamples.named "Bob" "Alice") Samples.book in
  dict_get "Alice" (data s') = Some Samples.bob_ref /\
  (Samples.alice_ref ∉ values (data s')) /\
  S (length (data s')) = length (data Samples.book) /\
  result (update_name MoreSamples.named "Bob" "Alice") Samples.book
    = Ok NameUpdated.
Proof.
  apply (update_name_overwrites MoreSamples.named Samples.book "Bob" "Alice"
           Samples.bob_ref Samples.alice_ref);
    [apply book_wf | apply book_wf | reflexivity | reflexivity | discriminate].
Defined.

Lemma set_name_restore r n :
  set_name (name r) (set_name n r) = r.
Proof. by destruct r. Qed.

(** X9: renaming a contact and renaming it back, the record accepting
    both names, restores every record and every lookup; only the
    iteration order shows the detour, the contact now being last. *)
Theorem update_name_round_trip (refuses : entity) (s : State)
    (old new : string) (l : loc) :
  Inv s ->
  dict_get old (data s) = Some l ->
  new ∉ keys (data s) ->
  refuses (heap s l) new = None ->
  refuses (set_name new (heap s l)) old = None ->
  let s1 := after (update_name refuses old new) s in
  let s2 := after (update_name refuses new old) s1 in
  result (update_name refuses old new) s = Ok NameUpdated /\
  result (update_name refuses new old) s1 = Ok NameUpdated /\
  data s2 = dict_del old (data s) ++ [(old, l)] /\
  (forall l', heap s2 l' = heap s l') /\
  (forall k, dict_get k (data s2) = dict_get k (data s)).
Proof.
  intros HI Hl Hnew Hr1 Hr2 s1 s2.
  assert (Hne : new <> old).
  { intros ->. apply Hnew, elem_of_keys. exists l. by apply dict_get_Some. }
  pose proof (update_name_accepted refuses s old new l Hl Hr1) as Hrun.
  assert (Hs1 : update_name refuses old new s = (Ok NameUpdated, s1)).
  { subst s1. unfold after. by rewrite Hrun. }
  assert (Hd1 : data s1 = dict_del old (data s) ++ [(new, l)]).
  { subst s1. unfold after. rewrite Hrun.
    cbn [snd data]. apply dict_set_fresh, not_elem_of_keys_del. by right. }
  assert (Hh1 : heap s1 = <[l := set_name new (heap s l)]> (heap s)).
  { subst s1. unfold after. by rewrite Hrun. }
  assert (Hl1 : dict_get new (data s1) = Some l).
  { subst s1. unfold after. rewrite Hrun.
    cbn [snd data]. apply dict_get_set_eq. }
  assert (Hdel : dict_del new (data s1) = dict_del old (data s)).
  { rewrite Hd1. clear -Hnew Hne.
    assert (new ∉ keys (dict_del old (data s))) as H
      by (apply not_elem_of_keys_del; by right).
    induction (dict_del old (data s)) as [|[k v] d IH]; simpl.
    - by rewrite String.eqb_refl.
    - unfold keys in H. rewrite fmap_cons, not_elem_of_cons in H.
      destruct H as [Hk Hd]. cbn [fst] in Hk.
      destruct (String.eqb_spec k new); [congruence|]. by rewrite IH. }
  assert (Hs2 : update_name refuses new old s1 =
                (Ok NameUpdated,
                 mkState (<[l := set_name old (heap s1 l)]> (heap s1))
                   (dict_set old l (dict_del new (data s1))))).
  { apply update_name_accepted; [done|].
    by rewrite Hh1, fn_lookup_insert. }
  assert (Hd2 : data s2 = dict_del old (data s) ++ [(old, l)]).
  { subst s2. unfold after. rewrite Hs2. cbn [snd data]. rewrite Hdel.
    apply dict_set_fresh, not_elem_of_keys_del. by left. }
  split_and!.
  - unfold result. by rewrite Hs1.
  - unfold result. by rewrite Hs2.
  - done.
  - intros l'. subst s2. unfold after. rewrite Hs2. cbn [snd heap].
    rewrite Hh1. destruct (decide (l' = l)) as [->|Hl'].
    + rewrite !fn_lookup_insert.
      rewrite <- (HI old l) at 1 by (by apply dict_get_Some).
      apply set_name_restore.
    + by rewrite !fn_lookup_insert_ne.
  - intros k. rewrite Hd2, <- (dict_set_fresh (dict_del old (data s)) old l)
      by (apply not_elem_of_keys_del; by left).
    destruct (decide (k = old)) as [->|Hk].
    + by rewrite dict_get_set_eq.
    + by rewrite dict_get_set_ne, dict_get_del_ne.
Qed.

Lemma update_name_round_trip_witness :
  let s2 := after (update_name MoreSamples.named "Robert" "Bob")
              (after (update_name MoreSamples.named "Bob" "Robert")
                 Samples.book) in
  data s2 = [("Alice"%string, Samples.alice_ref);
             ("Bob"%string, Samples.bob_ref)] /\
  heap s2 Samples.bob_ref = Samples.bob.
Proof.
  destruct (update_name_round_trip MoreSamples.named Samples.book "Bob"
              "Robert" Samples.bob_ref)
    as (_ & _ & Hd & Hh & _).
  - apply book_wf.
  - reflexivity.
  - apply (bool_decide_unpack _). vm_compute. reflexivity.
  - reflexivity.
  - reflexivity.
  - split; [exact Hd | exact (Hh Samples.bob_ref)].
Defined.

(** ** What reachable directories never contain *)

Lemma Inv_NoDup_values (s : State) :
  Inv s -> NoDup (keys (data s)) -> NoDup (values (data s)).
Proof.
  unfold Inv, keys, values. induction (data s) as [|[k l] d IH]; intros HI Hn.
  - constructor.
  - rewrite fmap_cons in *. apply NoDup_cons in Hn as [Hk Hn]. cbn [fst snd] in *.
    apply NoDup_cons. split.
    + intros [k' Hin]%elem_of_values. apply Hk.
      apply elem_of_keys. exists l.
      rewrite <- (HI k l) by left. by rewrite (HI k' l) by (by right).
    + apply IH; [|done]. intros k' l' Hin. apply HI. by right.
Qed.

(** X10: in a directory reached from the empty one by method calls none
    of which was a rename that the record refused, no record object is
    stored twice: the records under distinct names are distinct objects,
    so a change made to one contact never shows through another name.
    (After a refused rename this fails: see
    [update_name_refused_not_Inv].) *)
Theorem reachable_no_aliasing (refuses : entity) (s : State) :
  reachable refuses NoRefusedRename s ->
  NoDup (values (data s)) /\
  forall k1 k2 l, (k1, l) ∈ data s -> (k2, l) ∈ data s -> k1 = k2.
Proof.
  intros [HI Hn]%reachable_wf. split; [by apply Inv_NoDup_values|].
  intros k1 k2 l H1 H2. by rewrite <- (HI k1 l), <- (HI k2 l).
Qed.

Lemma reachable_no_aliasing_witness :
  NoDup (values (data (after (update_name MoreSamples.named "Bob" "Alice")
                         Samples.book))).
Proof.
  apply (reachable_no_aliasing MoreSamples.named).
  eapply reachable_step; [apply book_reachable | apply step_update_name].
  intros _ (l & e & Hl & He). injection Hl as <-. discriminate He.
Defined.

Lemma dict_get_Permutation d d' k :
  NoDup (keys d) -> NoDup (keys d') -> d ≡ₚ d' -> dict_get k d = dict_get k d'.
Proof.
  intros Hn Hn' Hp. destruct (dict_get k d) as [l|] eqn:E.
  - symmetry. apply elem_of_dict_get; [done|].
    rewrite <- Hp. by apply dict_get_Some.
  - symmetry. apply dict_get_None. apply dict_get_None in E.
    unfold keys in *. by rewrite <- Hp.
Qed.

(** X11: on a directory that satisfies the key invariant, sorting changes
    the iteration order and nothing else: no record is touched, the number
    of entries is the same, and every name finds the record it found
    before. *)
Theorem sort_records_keeps_lookups (s : State) (n : string) :
  Inv s -> NoDup (keys (data s)) ->
  let s' := after sort_records s in
  heap s' = heap s /\
  length (data s') = length (data s) /\
  result (find_contact n) s' = result (find_contact n) s.
Proof.
  intros HI Hn s'.
  pose proof (sort_records_Permutation s HI Hn) as Hp. fold s' in Hp.
  destruct (sort_records_sorted s) as (Hs & _ & _). fold s' in Hs.
  split_and!.
  - done.
  - by rewrite Hp.
  - unfold find_contact. run_monad. f_equal.
    apply dict_get_Permutation; [by apply str_lt_NoDup | done | done].
Qed.

Lemma sort_records_keeps_lookups_witness :
  result (find_contact "Bob") (after sort_records Samples.book)
  = result (find_contact "Bob") Samples.book.
Proof.
  apply (sort_records_keeps_lookups Samples.book "Bob"); apply book_wf.
Defined.

(** ** The birthday scan: day counts, bounds and failures *)

Lemma is_leap_spec y :
  Date.is_leap y = true <->
  y mod 4 = 0 /\ (y mod 100 <> 0 \/ y mod 400 = 0).
Proof.
  unfold Date.is_leap.
  rewrite andb_true_iff, orb_true_iff, negb_true_iff, !Z.eqb_eq, Z.eqb_neq.
  done.
Qed.

Lemma days_before_year_succ y :
  Date.days_before_year (y + 1) = Date.days_before_year y + year_length y.
Proof.
  unfold Date.days_before_year, year_length.
  replace (y + 1 - 1) with y by lia.
  destruct (Date.is_leap y) eqn:E.
  - apply is_leap_spec in E. Z.div_mod_to_equations. lia.
  - assert (~ (y mod 4 = 0 /\ (y mod 100 <> 0 \/ y mod 400 = 0))) as H.
    { rewrite <- is_leap_spec. congruence. }
    Z.div_mod_to_equations. lia.
Qed.

Lemma is_leap_succ y : Date.is_leap y = true -> Date.is_leap (y + 1) = false.
Proof.
  intros [H _]%is_leap_spec. destruct (Date.is_leap (y + 1)) eqn:E; [|done].
  apply is_leap_spec in E as [E _]. Z.div_mod_to_equations. lia.
Qed.

Lemma days_in_month_leap y m :
  Date.days_in_month y m = days_in_month_of (Date.is_leap y) m.
Proof. reflexivity. Qed.

Lemma days_before_month_leap y m :
  Date.days_before_month_aux y m = days_before_month_of (Date.is_leap y) m.
Proof.
  induction m as [|m IH]; [done|].
  cbn [Date.days_before_month_aux days_before_month_of].
  by rewrite IH, days_in_month_leap.
Qed.

Lemma toordinal_day_of_year d :
  Date.toordinal d =
  Date.days_before_year (Date.year d) +
  day_of_year (Date.is_leap (Date.year d)) (Date.month d) (Date.day d).
Proof.
  unfold Date.toordinal, Date.days_before_month, day_of_year.
  rewrite days_before_month_leap. lia.
Qed.

Ltac month_cases m :=
  let H := fresh in
  assert (H : m = 1 \/ m = 2 \/ m = 3 \/ m = 4 \/ m = 5 \/ m = 6 \/
              m = 7 \/ m = 8 \/ m = 9 \/ m = 10 \/ m = 11 \/ m = 12) by lia;
  destruct H as [->|[->|[->|[->|[->|[->|[->|[->|[->|[->|[->| ->]]]]]]]]]]].

Ltac calendar :=
  repeat progress (unfold day_of_year, days_in_month_of in *; simpl in * );
  lia.

Lemma day_of_year_range leap m d :
  1 <= m <= 12 -> 1 <= d <= days_in_month_of leap m ->
  1 <= day_of_year leap m d <= (if leap then 366 else 365).
Proof.
  intros Hm Hd. month_cases m; destruct leap; calendar.
Qed.

Lemma day_of_year_lt leap m d m' d' :
  1 <= m <= 12 -> 1 <= d <= days_in_month_of leap m ->
  1 <= m' <= 12 -> 1 <= d' <= days_in_month_of leap m' ->
  month_day_lt m d m' d' ->
  day_of_year leap m d < day_of_year leap m' d'.
Proof.
  intros Hm Hd Hm' Hd' Hlt. unfold month_day_lt in Hlt.
  month_cases m; month_cases m'; destruct leap; calendar.
Qed.

Lemma day_of_year_leap_shift leap leap' m d :
  1 <= m <= 12 ->
  day_of_year leap' m d <= day_of_year leap m d + (if leap then 0 else 1) /\
  day_of_year leap m d <= day_of_year leap' m d + (if leap' then 0 else 1).
Proof.
  intros Hm. month_cases m; destruct leap, leap'; calendar.
Qed.

Lemma valid_fields d :
  Date.valid d = true ->
  1 <= Date.year d <= 9999 /\ 1 <= Date.month d <= 12 /\
  1 <= Date.day d <= days_in_month_of (Date.is_leap (Date.year d)) (Date.month d).
Proof.
  unfold Date.valid. rewrite !andb_true_iff, !Z.leb_le.
  rewrite days_in_month_leap. lia.
Qed.

Lemma replace_year_Some d y d' :
  Date.replace_year d y = Some d' ->
  d' = Date.mk y (Date.month d) (Date.day d) /\ Date.valid d' = true.
Proof.
  unfold Date.replace_year.
  destruct (Date.valid _) eqn:E; [|done]. by intros [= <-].
Qed.

Lemma ltb_same_year y m d today :
  Date.year today = y ->
  Date.ltb (Date.mk y m d) today = true <->
  month_day_lt m d (Date.month today) (Date.day today).
Proof.
  intros <-. unfold Date.ltb, month_day_lt. cbn [Date.year Date.month Date.day].
  rewrite !orb_true_iff, !andb_true_iff, !orb_true_iff, !andb_true_iff.
  rewrite !Z.ltb_lt, !Z.eqb_eq. lia.
Qed.

(** The day count is never negative and never more than 365. *)
Lemma delta_days_range today b delta :
  Date.valid today = true ->
  delta_days today b = Some delta ->
  0 <= delta <= 365.
Proof.
  intros (Hy & Hm & Hd)%valid_fields. unfold delta_days.
  destruct (Date.replace_year b (Date.year today)) as [d1|] eqn:E1; [|done].
  apply replace_year_Some in E1 as [-> (Hy1 & Hm1 & Hd1)%valid_fields].
  cbn [Date.year Date.month Date.day] in *.
  set (Y := Date.year today) in *.
  destruct (Date.ltb _ today) eqn:Elt.
  - apply (ltb_same_year Y) in Elt; [|done].
    destruct (Date.replace_year _ (Y + 1)) as [d2|] eqn:E2; [|done].
    apply replace_year_Some in E2 as [-> (Hy2 & Hm2 & Hd2)%valid_fields].
    cbn [Date.year Date.month Date.day] in *.
    intros [= <-]. unfold Date.sub_days. rewrite !toordinal_day_of_year.
    cbn [Date.year Date.month Date.day]. fold Y.
    rewrite days_before_year_succ. unfold year_length.
    pose proof (day_of_year_lt (Date.is_leap Y) _ _ _ _ Hm1 Hd1 Hm Hd Elt).
    pose proof (day_of_year_range _ _ _ Hm Hd).
    pose proof (day_of_year_range _ _ _ Hm2 Hd2).
    pose proof (day_of_year_leap_shift (Date.is_leap Y) (Date.is_leap (Y + 1))
                  (Date.month b) (Date.day b) Hm1) as [? ?].
    destruct (Date.is_leap Y), (Date.is_leap (Y + 1)); lia.
  - intros [= <-]. unfold Date.sub_days. rewrite !toordinal_day_of_year.
    cbn [Date.year Date.month Date.day]. fold Y.
    assert (~ month_day_lt (Date.month b) (Date.day b)
              (Date.month today) (Date.day today)) as Hge.
    { rewrite <- (ltb_same_year Y) by done. congruence. }
    pose proof (day_of_year_range _ _ _ Hm Hd).
    pose proof (day_of_year_range _ _ _ Hm1 Hd1).
    destruct (decide (Date.month b = Date.month today /\
                      Date.day b = Date.day today)) as [[-> ->]|Hne].
    + destruct (Date.is_leap Y); lia.
    + assert (month_day_lt (Date.month today) (Date.day today)
                (Date.month b) (Date.day b)) as Hlt
        by (unfold month_day_lt in *; lia).
      pose proof (day_of_year_lt (Date.is_leap Y) _ _ _ _ Hm Hd Hm1 Hd1 Hlt).
      destruct (Date.is_leap Y); lia.
Qed.

Lemma delta_days_None today b :
  Date.valid today = true -> Date.year today < 9999 -> Date.valid b = true ->
  delta_days today b = None <->
  feb29 b /\
  (Date.is_leap (Date.year today) = false \/
   Date.ltb (Date.mk (Date.year today) 2 29) today = true).
Proof.
  intros Ht Hy Hb. pose proof (valid_fields _ Ht) as (Hy' & _ & _). split.
  - intros Hd.
    assert (feb29 b) as [Hm Hday].
    { destruct (decide (feb29 b)) as [?|Hn]; [done|].
      destruct (delta_days_defined today b Hb) as [? ?];
        [lia | done | congruence]. }
    split; [done|].
    destruct (Date.is_leap (Date.year today)) eqn:El; [right | by left].
    unfold delta_days, Date.replace_year, Date.valid in Hd.
    cbn [Date.year Date.month Date.day] in Hd. rewrite Hm, Hday in Hd.
    unfold Date.days_in_month in Hd. rewrite El in Hd.
    replace ((1 <=? Date.year today) && (Date.year today <=? 9999))
      with true in Hd
      by (symmetry; apply andb_true_iff; rewrite !Z.leb_le; lia).
    simpl in Hd.
    by destruct (Date.ltb _ today).
  - intros [[Hm Hday] Hcase]. destruct b as [y m d].
    cbn [Date.month Date.day] in Hm, Hday. subst m d.
    destruct (Date.is_leap (Date.year today)) eqn:El.
    + destruct Hcase as [?|Hlt]; [done|].
      unfold delta_days, Date.replace_year, Date.valid.
      cbn [Date.year Date.month Date.day]. unfold Date.days_in_month.
      rewrite El, (is_leap_succ _ El).
      replace ((1 <=? Date.year today) && (Date.year today <=? 9999))
        with true
        by (symmetry; apply andb_true_iff; rewrite !Z.leb_le; lia).
      simpl. rewrite Hlt. by rewrite !andb_false_r.
    + by apply delta_days_feb29.
Qed.

Lemma raises_at_spec today r :
  raises_at today r = true <->
  exists b, birthday r = Some b /\ delta_days today b = None.
Proof.
  unfold raises_at. destruct (birthday r) as [b|].
  - destruct (delta_days today b) eqn:E.
    + split; [done | intros (b' & [= <-] & ?); congruence].
    + split; [by exists b | done].
  - split; [done | by intros (? & ? & ?)].
Qed.

(** The scan either visits every record and returns, or raises
    [ValueError] at a record whose birthday cannot be projected. *)
Lemma get_upcoming_birthdays_cases today n s :
  (projectable today s /\
   exists res, get_upcoming_birthdays today n s = (Ok res, s)) \/
  ((exists l b, l ∈ values (data s) /\ birthday (heap s l) = Some b /\
                delta_days today b = None) /\
   get_upcoming_birthdays today n s = (Raise ValueError, s)).
Proof.
  destruct (existsb (fun l => raises_at today (heap s l)) (values (data s)))
    eqn:E.
  - right. apply existsb_exists in E as (l & Hl & (b & Hb & Hd)%raises_at_spec).
    apply list_elem_of_In in Hl.
    split; [by exists l, b | by eapply get_upcoming_birthdays_raises].
  - left. assert (projectable today s) as Hp.
    { intros l b Hl Hb. destruct (delta_days today b) eqn:Hd; [done|].
      assert (existsb (fun l => raises_at today (heap s l)) (values (data s))
              = true); [|congruence].
      apply existsb_exists. exists l. rewrite <- list_elem_of_In.
      split; [done|]. apply raises_at_spec. by exists b. }
    split; [done|].
    destruct (get_upcoming_birthdays_window today n s Hp) as (res & ? & _).
    by exists res.
Qed.

Lemma filter_sublist {A} (f g : A -> bool) (l : list A) :
  (forall x, f x = true -> g x = true) ->
  sublist (List.filter f l) (List.filter g l).
Proof.
  intros Hfg. induction l as [|x l IH]; simpl; [done|].
  destruct (f x) eqn:Ef.
  - rewrite (Hfg x Ef). by constructor.
  - destruct (g x); [by constructor | done].
Qed.

(** X12: when no contact was born on 29 February (and the birthdays are
    calendar dates), [get_upcoming_birthdays] returns, in the iteration
    order of the directory, exactly the records whose birthday comes up
    within [n_days] days, today included. *)
Theorem upcoming_birthdays_without_leap_day (today : date) (n : Z) (s : State) :
  Date.valid today = true -> Date.year today < 9999 ->
  valid_birthdays s ->
  (forall l b, l ∈ values (data s) -> birthday (heap s l) = Some b ->
               ~ feb29 b) ->
  exists res,
    result (get_upcoming_birthdays today n) s = Ok res /\
    res = List.filter (fun l => in_window today n (heap s l))
            (values (data s)) /\
    forall l, l ∈ res <->
      l ∈ values (data s) /\
      exists b delta, birthday (heap s l) = Some b /\
                      delta_days today b = Some delta /\
                      0 <= delta <= n.
Proof.
  intros Ht Hy Hv Hn.
  pose proof (valid_fields _ Ht) as (Hy' & _ & _).
  assert (projectable today s) as Hp.
  { intros l b Hl Hb. apply delta_days_defined; [by eapply Hv | lia |].
    by apply (Hn l b). }
  destruct (get_upcoming_birthdays_window today n s Hp) as (res & Hr & ? & ?).
  exists res. unfold result. by rewrite Hr.
Qed.

(** X13: widening the window never loses a contact and never turns a
    result into a failure: if the scan returns for [n] days, it returns
    for every [n' >= n], and the first result is a sublist of the
    second. *)
Theorem upcoming_birthdays_monotone (today : date) (n n' : Z) (s : State)
    (res : list loc) :
  n <= n' ->
  result (get_upcoming_birthdays today n) s = Ok res ->
  exists res',
    result (get_upcoming_birthdays today n') s = Ok res' /\ sublist res res'.
Proof.
  intros Hle Hres. unfold result in *.
  destruct (get_upcoming_birthdays_cases today n s) as [[Hp _]|[_ Hr]];
    [|by rewrite Hr in Hres].
  destruct (get_upcoming_birthdays_window today n s Hp) as (r & Hr & -> & _).
  destruct (get_upcoming_birthdays_window today n' s Hp) as (r' & Hr' & -> & _).
  rewrite Hr in Hres. injection Hres as <-.
  eexists. rewrite Hr'. split; [done|].
  apply filter_sublist. intros l. unfold in_window.
  destruct (birthday (heap s l)) as [b|]; [|done].
  destruct (delta_days today b); [|done].
  rewrite !andb_true_iff, !Z.leb_le. lia.
Qed.

(** X14: [get_upcoming_birthdays] fails in one situation only, and then
    whatever [n_days] is: it raises [ValueError] exactly when some contact
    of the directory was born on 29 February and either the current year
    is not a leap year or its 29 February has already passed.  The
    directory is left untouched in either case. *)
Theorem upcoming_birthdays_raise_iff_leap_day (today : date) (n : Z)
    (s : State) :
  Date.valid today = true -> Date.year today < 9999 ->
  valid_birthdays s ->
  (result (get_upcoming_birthdays today n) s = Raise ValueError <->
   (exists l b, l ∈ values (data s) /\ birthday (heap s l) = Some b /\
                feb29 b) /\
   (Date.is_leap (Date.year today) = false \/
    Date.ltb (Date.mk (Date.year today) 2 29) today = true)) /\
  (forall e, result (get_upcoming_birthdays today n) s = Raise e ->
             e = ValueError) /\
  after (get_upcoming_birthdays today n) s = s.
Proof.
  intros Ht Hy Hv. unfold result.
  split_and!; [| |apply get_upcoming_birthdays_state].
  - destruct (get_upcoming_birthdays_cases today n s)
      as [[Hp [res Hr]]|[(l & b & Hl & Hb & Hd) Hr]]; rewrite Hr; cbn [fst].
    + split; [done|]. intros [(l & b & Hl & Hb & Hf) Hcase].
      destruct (Hp l b Hl Hb) as [delta Hd].
      assert (delta_days today b = None); [|congruence].
      apply delta_days_None; [done | done | by eapply Hv | done].
    + split; [intros _ | done].
      apply delta_days_None in Hd as [Hf Hcase]; [| done | done | by eapply Hv].
      split; [by exists l, b | done].
  - intros e.
    destruct (get_upcoming_birthdays_cases today n s)
      as [[_ [res Hr]]|[_ Hr]]; rewrite Hr; cbn [fst]; congruence.
Qed.

Lemma filter_none {A} (f : A -> bool) (l : list A) :
  (forall x, x ∈ l -> f x = false) -> List.filter f l = [].
Proof.
  induction l as [|x l IH]; intros H; simpl; [done|].
  rewrite (H x) by left. apply IH. intros y Hy. apply H. by right.
Qed.

(** X15: the day count of a birthday is never negative and never more than
    365.  So, on a directory whose birthdays can all be projected, a
    negative [n_days] returns the empty list, an [n_days] of 365 or more
    returns every contact that has a birthday, and whatever is returned
    is at most 365 days away. *)
Theorem upcoming_birthdays_window_extremes (today : date) (n : Z) (s : State) :
  Date.valid today = true ->
  projectable today s ->
  (n < 0 -> result (get_upcoming_birthdays today n) s = Ok []) /\
  (365 <= n ->
   result (get_upcoming_birthdays today n) s
   = Ok (List.filter (fun l => has_birthday (heap s l)) (values (data s)))) /\
  (forall l b delta, l ∈ values (data s) -> birthday (heap s l) = Some b ->
     delta_days today b = Some delta -> 0 <= delta <= 365).
Proof.
  intros Ht Hp.
  destruct (get_upcoming_birthdays_window today n s Hp) as (res & Hr & -> & _).
  unfold result. rewrite Hr. cbn [fst]. split_and!.
  - intros Hn. f_equal. apply filter_none. intros l _. unfold in_window.
    destruct (birthday (heap s l)) as [b|]; [|done].
    destruct (delta_days today b); [|done].
    apply andb_false_iff. rewrite !Z.leb_gt. lia.
  - intros Hn. f_equal. apply filter_ext_in. intros l Hl%list_elem_of_In.
    unfold in_window, has_birthday.
    destruct (birthday (heap s l)) as [b|] eqn:Hb; [|done].
    destruct (Hp l b Hl Hb) as [delta Hd]. rewrite Hd.
    pose proof (delta_days_range today b delta Ht Hd).
    apply andb_true_iff. rewrite !Z.leb_le. lia.
  - intros l b delta _ _ Hd. by apply (delta_days_range today b).
Qed.

Lemma book_values l :
  l ∈ values (data Samples.book) ->
  l = Samples.bob_ref \/ l = Samples.alice_ref.
Proof.
  intros Hl. change (l ∈ [Samples.bob_ref; Samples.alice_ref]) in Hl.
  apply elem_of_cons in Hl as [?|Hl]; [by left|].
  apply elem_of_cons in Hl as [?|Hl]; [by right|].
  by apply elem_of_nil in Hl.
Defined.

Lemma book_valid_birthdays : valid_birthdays Samples.book.
Proof.
  intros l b [->| ->]%book_values [= <-]; reflexivity.
Defined.

Lemma book_no_leap_day l b :
  l ∈ values (data Samples.book) -> birthday (heap Samples.book l) = Some b ->
  ~ feb29 b.
Proof.
  intros [->| ->]%book_values [= <-] [_ Hd]; discriminate Hd.
Defined.

Lemma book_projectable : projectable (Date.mk 2023 6 15) Samples.book.
Proof.
  intros l b [->| ->]%book_values [= <-]; eexists; reflexivity.
Defined.

Lemma leap_book_valid_birthdays : valid_birthdays Samples.leap_book.
Proof.
  intros l b Hl. change (l ∈ [Samples.luca_ref]) in Hl.
  apply list_elem_of_singleton in Hl as ->. intros [= <-]. reflexivity.
Defined.

Lemma upcoming_birthdays_without_leap_day_witness :
  exists res,
    result (get_upcoming_birthdays (Date.mk 2023 6 15) 5) Samples.book = Ok res /\
    res = List.filter (fun l => in_window (Date.mk 2023 6 15) 5
                                  (heap Samples.book l))
            (values (data Samples.book)) /\
    forall l, l ∈ res <->
      l ∈ values (data Samples.book) /\
      exists b delta, birthday (heap Samples.book l) = Some b /\
                      delta_days (Date.mk 2023 6 15) b = Some delta /\
                      0 <= delta <= 5.
Proof.
  apply (upcoming_birthdays_without_leap_day (Date.mk 2023 6 15) 5 Samples.book);
    [reflexivity | reflexivity | exact book_valid_birthdays
    | exact book_no_leap_day].
Defined.

Lemma upcoming_birthdays_monotone_witness :
  exists res',
    result (get_upcoming_birthdays (Date.mk 2023 6 15) 10) Samples.book
      = Ok res' /\
    sublist [Samples.alice_ref] res'.
Proof.
  apply (upcoming_birthdays_monotone (Date.mk 2023 6 15) 5 10 Samples.book
           [Samples.alice_ref]); [lia | reflexivity].
Defined.

Lemma upcoming_birthdays_raise_iff_leap_day_witness :
  result (get_upcoming_birthdays (Date.mk 2023 6 15) 7) Samples.leap_book
  = Raise ValueError.
Proof.
  apply (proj1 (upcoming_birthdays_raise_iff_leap_day (Date.mk 2023 6 15) 7
                  Samples.leap_book eq_refl eq_refl leap_book_valid_birthdays)).
  split; [|by left].
  exists Samples.luca_ref, (Date.mk 2000 2 29).
  split_and!; [left | reflexivity | split; reflexivity].
Defined.

Lemma upcoming_birthdays_window_extremes_witness :
  result (get_upcoming_birthdays (Date.mk 2023 6 15) (-1)) Samples.book = Ok [] /\
  result (get_upcoming_birthdays (Date.mk 2023 6 15) 365) Samples.book
  = Ok [Samples.bob_ref; Samples.alice_ref].
Proof.
  split.
  - apply (upcoming_birthdays_window_extremes (Date.mk 2023 6 15) (-1)
             Samples.book eq_refl book_projectable). lia.
  - apply (upcoming_birthdays_window_extremes (Date.mk 2023 6 15) 365
             Samples.book eq_refl book_projectable). lia.
Defined.

(** ** Searching by field and by tag *)

Lemma str_contains_empty s : str_contains EmptyString s = true.
Proof. by destruct s. Qed.

Lemma append_empty_r s : s +:+ EmptyString = s.
Proof.
  induction s as [|c s IH]; [done|].
  change (String c (s +:+ EmptyString) = String c s). by f_equal.
Qed.

Lemma str_contains_refl s : str_contains s s = true.
Proof.
  apply str_contains_spec. exists EmptyString, EmptyString.
  simpl. by rewrite append_empty_r.
Qed.

Lemma existsb_elem_of {A} (f : A -> bool) (l : list A) :
  existsb f l = true <-> exists x, x ∈ l /\ f x = true.
Proof.
  rewrite existsb_exists. by setoid_rewrite list_elem_of_In.
Qed.

Lemma existsb_pointwise {A} (f g : A -> bool) (l : list A) :
  (forall x, f x = g x) -> existsb f l = existsb g l.
Proof.
  intros H. induction l as [|x l IH]; simpl; [done | by rewrite H, IH].
Qed.

Lemma existsb_true_nonempty {A} (l : list A) :
  existsb (fun _ => true) l = true <-> l <> [].
Proof. destruct l; simpl; split; done. Qed.

(** X16: a search on a field name that is none of the built-in ones and
    that no record of the directory has as an attribute finds nothing: the
    result is the empty list, not a failure. *)
Theorem find_contacts_by_unknown_field lower pv nv ga rv (s : State)
    (f v : string) :
  f <> "phone"%string -> f <> "phones"%string -> f <> "note"%string ->
  f <> "tag"%string -> f <> "all"%string ->
  (forall l, l ∈ values (data s) -> ga (heap s l) f = None) ->
  result (find_contacts_by_field lower pv nv ga rv f v) s = Ok [].
Proof.
  intros H1 H2 H3 H4 H5 Hga.
  destruct (find_contacts_by_field_loop_pure lower pv nv ga rv f v
              (values (data s)) ∅ s) as (res & Hres & Hin).
  unfold result, find_contacts_by_field. run_monad. rewrite Hres. cbn [fst].
  f_equal. apply elements_empty_iff, elem_of_equiv_empty. intros l Hl.
  apply Hin in Hl as [Hl|[Hl Hm]]; [by apply elem_of_empty in Hl|].
  unfold match_field in Hm.
  rewrite (proj2 (String.eqb_neq _ _) H1), (proj2 (String.eqb_neq _ _) H2),
    (proj2 (String.eqb_neq _ _) H3), (proj2 (String.eqb_neq _ _) H4),
    (proj2 (String.eqb_neq _ _) H5), (Hga l Hl) in Hm.
  done.
Qed.

Lemma find_contacts_by_unknown_field_witness :
  result (find_contacts_by_field ascii_lower
            (fun p => Samples.plain_view (value p))
            (fun n => Samples.plain_view (content n))
            (fun _ _ => None) (fun _ => []) "email" "bob") Samples.book
  = Ok [].
Proof.
  apply find_contacts_by_unknown_field; try discriminate. done.
Defined.

(** X17: the empty search text matches whatever there is to search in:
    on the field ["tag"] the result is every record that has a note with
    at least one tag, on the field ["phone"] every record that has a
    phone. *)
Theorem find_contacts_by_empty_text lower pv nv ga rv (s : State) :
  lower EmptyString = EmptyString ->
  (exists res,
     result (find_contacts_by_field lower pv nv ga rv "tag" EmptyString) s
       = Ok res /\
     forall l, l ∈ res <->
       l ∈ values (data s) /\
       exists note, note ∈ notes (heap s l) /\ tags note <> []) /\
  (exists res,
     result (find_contacts_by_field lower pv nv ga rv "phone" EmptyString) s
       = Ok res /\
     forall l, l ∈ res <-> l ∈ values (data s) /\ phones (heap s l) <> []).
Proof.
  intros Hlow. split.
  - destruct (find_contacts_by_field_loop_pure lower pv nv ga rv "tag"
                EmptyString (values (data s)) ∅ s) as (res & Hres & Hin).
    exists (elements res). unfold result, find_contacts_by_field. run_monad.
    rewrite Hres. split; [done|]. intros l.
    rewrite elem_of_elements, Hin.
    change (match_field lower pv nv ga rv "tag" EmptyString (heap s l))
      with (match_tag lower EmptyString (heap s l)).
    unfold match_tag. rewrite existsb_elem_of, Hlow.
    assert (forall note,
              existsb (fun tag => str_contains EmptyString (lower tag))
                (tags note) = true <-> tags note <> []) as Htags.
    { intros note. rewrite <- existsb_true_nonempty.
      rewrite (existsb_pointwise _ (fun _ => true)); [done|].
      intros tag. apply str_contains_empty. }
    split.
    + intros [H|[Hl (note & Hn & Ht)]]; [by apply elem_of_empty in H|].
      split; [done|]. exists note. by rewrite <- Htags.
    + intros [Hl (note & Hn & Ht)]. right. split; [done|].
      exists note. by rewrite Htags.
  - destruct (find_contacts_by_field_loop_pure lower pv nv ga rv "phone"
                EmptyString (values (data s)) ∅ s) as (res & Hres & Hin).
    exists (elements res). unfold result, find_contacts_by_field. run_monad.
    rewrite Hres. split; [done|]. intros l.
    rewrite elem_of_elements, Hin.
    change (match_field lower pv nv ga rv "phone" EmptyString (heap s l))
      with (match_phones pv EmptyString (heap s l)).
    assert (match_phones pv EmptyString (heap s l) = true <->
            phones (heap s l) <> []) as ->.
    { unfold match_phones. rewrite <- existsb_true_nonempty.
      rewrite (existsb_pointwise
                 (fun phone => str_contains EmptyString (py_str (pv phone)))
                 (fun _ => true)) by (intros; apply str_contains_empty).
      destruct (phones (heap s l)); simpl; [done|]. by rewrite orb_true_r. }
    split; [intros [H|?]; [by apply elem_of_empty in H | done] | by right].
Qed.

Lemma find_contacts_by_empty_text_witness :
  exists res,
    result (find_contacts_by_field ascii_lower
              (fun p => Samples.plain_view (value p))
              (fun n => Samples.plain_view (content n))
              (fun _ _ => None) (fun _ => []) "tag" EmptyString) Samples.book
      = Ok res /\
    forall l, l ∈ res <->
      l ∈ values (data Samples.book) /\
      exists note, note ∈ notes (heap Samples.book l) /\ tags note <> [].
Proof.
  apply (find_contacts_by_empty_text ascii_lower). reflexivity.
Defined.

Lemma find_notes_by_tag_loop_run tag ls acc s :
  find_notes_by_tag_loop tag ls acc s =
    (Ok (acc ++ concat (map (fun l => notes_with_tag tag (heap s l)) ls)), s).
Proof.
  revert acc. induction ls as [|l ls IH]; intros acc; simpl.
  - by rewrite app_nil_r.
  - run_monad. rewrite IH. unfold notes_with_tag. by rewrite <- app_assoc.
Qed.

Lemma elem_of_notes_with_tag tag r note :
  note ∈ notes_with_tag tag r <-> note ∈ notes r /\ tag ∈ tags note.
Proof.
  unfold notes_with_tag. rewrite list_elem_of_filter, existsb_elem_of.
  split.
  - intros [(t & Ht & ->%String.eqb_eq) Hn]. done.
  - intros [Hn Ht]. split; [|done]. exists tag. by rewrite String.eqb_refl.
Qed.

(** X18: [find_notes_by_tag] never fails and returns the notes that carry
    exactly the given tag -- an exact, case-sensitive match, not a
    substring -- record by record in iteration order, the notes of a
    record in their own order. *)
Theorem find_notes_by_tag_exact (s : State) (tag : string) :
  exists res,
    result (find_notes_by_tag tag) s = Ok res /\
    res = concat (map (fun l => notes_with_tag tag (heap s l))
                    (values (data s))) /\
    forall note, note ∈ res <->
      exists l, l ∈ values (data s) /\ note ∈ notes (heap s l) /\
                tag ∈ tags note.
Proof.
  eexists. split_and!.
  - unfold result, find_notes_by_tag. run_monad.
    rewrite find_notes_by_tag_loop_run. cbn [fst]. by rewrite app_nil_l.
  - done.
  - intros note. rewrite list_elem_of_In, in_concat. split.
    + intros (ns & (l & <- & Hl)%in_map_iff & Hn).
      apply list_elem_of_In in Hl, Hn.
      apply elem_of_notes_with_tag in Hn as [? ?]. by exists l.
    + intros (l & Hl & Hn & Ht).
      exists (notes_with_tag tag (heap s l)). split.
      * apply in_map_iff. exists l. by rewrite <- list_elem_of_In.
      * apply list_elem_of_In, elem_of_notes_with_tag. done.
Qed.

(** X19: the two tag searches agree in this direction: every note that
    [find_notes_by_tag] returns for a tag belongs to a record that
    [find_contacts_by_field] returns for the field ["tag"] and the same
    text. *)
Theorem notes_by_tag_owned_by_found_contact lower pv nv ga rv (s : State)
    (tag : string) (res : list Note) (note : Note) :
  result (find_notes_by_tag tag) s = Ok res ->
  note ∈ res ->
  exists contacts l,
    result (find_contacts_by_field lower pv nv ga rv "tag" tag) s
      = Ok contacts /\
    l ∈ contacts /\ note ∈ notes (heap s l).
Proof.
  unfold result, find_notes_by_tag. run_monad.
  rewrite find_notes_by_tag_loop_run. cbn [fst]. rewrite app_nil_l.
  intros [= <-] Hn.
  apply list_elem_of_In, in_concat in Hn as (ns & (l & <- & Hl)%in_map_iff & Hn).
  apply list_elem_of_In in Hl, Hn.
  apply elem_of_notes_with_tag in Hn as [Hn Ht].
  destruct (find_contacts_by_field_loop_pure lower pv nv ga rv "tag" tag
              (values (data s)) ∅ s) as (set & Hset & Hin).
  exists (elements set), l. split_and!; [| |done].
  - unfold find_contacts_by_field. run_monad. by rewrite Hset.
  - apply elem_of_elements, Hin. right. split; [done|].
    change (match_field lower pv nv ga rv "tag" tag (heap s l))
      with (match_tag lower tag (heap s l)).
    apply match_tag_spec. exists note, tag. split_and!; [done | done |].
    exists EmptyString, EmptyString. simpl. by rewrite append_empty_r.
Qed.

Lemma notes_by_tag_owned_by_found_contact_witness :
  exists contacts l,
    result (find_contacts_by_field ascii_lower
              (fun p => Samples.plain_view (value p))
              (fun n => Samples.plain_view (content n))
              (fun _ _ => None) (fun _ => []) "tag" "urgent") Samples.book
      = Ok contacts /\
    l ∈ contacts /\
    mkNote "todo" "call the office" ["Work"; "urgent"]
      ∈ notes (heap Samples.book l).
Proof.
  apply (notes_by_tag_owned_by_found_contact _ _ _ _ _ Samples.book "urgent"
           [mkNote "todo" "call the office" ["Work"; "urgent"]]);
    [reflexivity | left].
Defined.

(** X20: the tag search sees the searched text only through its
    lower-casing: two texts that lower-case to the same string find the
    same records (and are returned as the same list). *)
Theorem find_contacts_by_tag_case_insensitive lower pv nv ga rv (s : State)
    (v v' : string) :
  lower v = lower v' ->
  result (find_contacts_by_field lower pv nv ga rv "tag" v) s
  = result (find_contacts_by_field lower pv nv ga rv "tag" v') s.
Proof.
  intros Hv.
  destruct (find_contacts_by_field_loop_pure lower pv nv ga rv "tag" v
              (values (data s)) ∅ s) as (res & Hres & Hin).
  destruct (find_contacts_by_field_loop_pure lower pv nv ga rv "tag" v'
              (values (data s)) ∅ s) as (res' & Hres' & Hin').
  unfold result, find_contacts_by_field. run_monad.
  rewrite Hres, Hres'. cbn [fst]. do 2 f_equal.
  apply set_eq. intros l. rewrite Hin, Hin'.
  change (match_field lower pv nv ga rv "tag" v (heap s l))
    with (match_tag lower v (heap s l)).
  change (match_field lower pv nv ga rv "tag" v' (heap s l))
    with (match_tag lower v' (heap s l)).
  unfold match_tag. by rewrite Hv.
Qed.

Lemma find_contacts_by_tag_case_insensitive_witness :
  result (find_contacts_by_field ascii_lower
            (fun p => Samples.plain_view (value p))
            (fun n => Samples.plain_view (content n))
            (fun _ _ => None) (fun _ => []) "tag" "WORK") Samples.book
  = result (find_contacts_by_field ascii_lower
              (fun p => Samples.plain_view (value p))
              (fun n => Samples.plain_view (content n))
              (fun _ _ => None) (fun _ => []) "tag" "work") Samples.book.
Proof.
  apply find_contacts_by_tag_case_insensitive. reflexivity.
Defined.

(** ** What deleting a note leaves alone *)

Lemma find_pointwise {A} (f g : A -> bool) (l : list A) :
  (forall x, f x = g x) -> find f l = find g l.
Proof.
  intros H. induction l as [|x l IH]; simpl; [done|]. by rewrite H, IH.
Qed.

Lemma get_upcoming_birthdays_loop_frame today n ls acc s s' :
  (forall l, birthday (heap s' l) = birthday (heap s l)) ->
  fst (get_upcoming_birthdays_loop today n ls acc s')
  = fst (get_upcoming_birthdays_loop today n ls acc s).
Proof.
  intros Hb. revert acc. induction ls as [|l ls IH]; intros acc; simpl; [done|].
  run_monad. rewrite Hb. destruct (birthday (heap s l)) as [b|]; [|apply IH].
  unfold py_replace_year. run_monad.
  destruct (Date.replace_year b (Date.year today)) as [d|]; [|done].
  destruct (Date.ltb d today).
  - destruct (Date.replace_year d (Date.year today + 1)) as [d'|]; [|done].
    destruct (_ && _); apply IH.
  - destruct (_ && _); apply IH.
Qed.

(** X21: deleting a note does not disturb the contact lookups: the owner,
    the contact found for a name or for a phone number, and the upcoming
    birthdays are what they were before the deletion. *)
Theorem delete_note_by_title_keeps_contacts (s : State) (t : string)
    (k phone : string) (today : date) (n : Z) :
  let s' := after (delete_note_by_title t) s in
  result get_owner s' = result get_owner s /\
  result (find_contact k) s' = result (find_contact k) s /\
  result (find_phone phone) s' = result (find_phone phone) s /\
  result (get_upcoming_birthdays today n) s'
  = result (get_upcoming_birthdays today n) s.
Proof.
  intros s'.
  assert (Hd : data s' = data s).
  { subst s'. unfold after. rewrite delete_note_by_title_run. cbn [snd].
    by destruct (find _ _). }
  assert (Hh : forall l, owner (heap s' l) = owner (heap s l) /\
                         phones (heap s' l) = phones (heap s l) /\
                         birthday (heap s' l) = birthday (heap s l)).
  { intros l. subst s'. unfold after. rewrite delete_note_by_title_run.
    cbn [snd]. destruct (find _ _) as [l0|]; [|done]. cbn [heap].
    destruct (decide (l = l0)) as [->|Hne].
    - by rewrite fn_lookup_insert.
    - by rewrite fn_lookup_insert_ne. }
  unfold result. split_and!.
  - unfold get_owner. run_monad. rewrite !get_owner_loop_find, Hd.
    cbn [fst]. f_equal. apply find_pointwise. intros l. apply Hh.
  - unfold find_contact. run_monad. by rewrite Hd.
  - unfold find_phone. run_monad. rewrite !find_phone_loop_find, Hd.
    cbn [fst]. f_equal. apply find_pointwise. intros l.
    unfold compose, has_phone. by rewrite (proj1 (proj2 (Hh l))).
  - unfold get_upcoming_birthdays. run_monad. rewrite Hd.
    apply get_upcoming_birthdays_loop_frame. intros l. apply Hh.
Qed.

(** ** Adding and deleting *)

Lemma dict_del_app_fresh d k l :
  k ∉ keys d -> dict_del k (d ++ [(k, l)]) = d.
Proof.
  induction d as [|[k' v] d IH]; intros Hk.
  - simpl. by rewrite String.eqb_refl.
  - unfold keys in Hk. rewrite fmap_cons, not_elem_of_cons in Hk.
    destruct Hk as [Hne Hk]. cbn [fst] in Hne. simpl.
    destruct (String.eqb_spec k' k); [congruence|]. by rewrite IH.
Qed.

(** X22: adding a contact under a new name and deleting that name again
    gives back the directory as it was, order included. *)
Theorem add_record_then_delete (s : State) (l : loc) :
  name (heap s l) <> EmptyString ->
  name (heap s l) ∉ keys (data s) ->
  let s1 := after (add_record (PyRecord l)) s in
  result (add_record (PyRecord l)) s = Ok tt /\
  result (delete (name (heap s l))) s1 = Ok "Contact deleted."%string /\
  after (delete (name (heap s l))) s1 = s.
Proof.
  intros Hne Hfresh s1. subst s1. unfold result, after.
  rewrite (add_record_ok _ _ Hne). cbn [fst snd].
  rewrite delete_present;
    [|cbn [data]; rewrite dict_get_set_eq; congruence].
  cbn [fst snd heap data]. split_and!; [done..|].
  rewrite dict_set_fresh by done. rewrite dict_del_app_fresh by done.
  by destruct s.
Qed.

Lemma add_record_then_delete_witness :
  after (delete "Luca")
    (after (add_record (PyRecord Samples.luca_ref)) Samples.book)
  = Samples.book.
Proof.
  apply (add_record_then_delete Samples.book Samples.luca_ref).
  - discriminate.
  - apply (bool_decide_unpack _). vm_compute. reflexivity.
Defined.

(** ** Instances of the scans on the sample directory *)

Lemma get_owner_first_owner_witness :
  exists pre post,
    values (data Samples.book) = pre ++ Samples.alice_ref :: post /\
    owner (heap Samples.book Samples.alice_ref) = true /\
    forall l', l' ∈ pre -> owner (heap Samples.book l') = false.
Proof. exact (get_owner_first_owner Samples.book). Defined.

Lemma find_phone_first_match_witness :
  exists pre post,
    values (data MoreSamples.book1) = pre ++ Samples.bob_ref :: post /\
    (exists number, number ∈ phones (heap MoreSamples.book1 Samples.bob_ref) /\
                    value number = "456"%string) /\
    forall l' number, l' ∈ pre -> number ∈ phones (heap MoreSamples.book1 l') ->
                      value number <> "456"%string.
Proof. exact (find_phone_first_match MoreSamples.book1 "456"). Defined.

Lemma find_note_by_title_first_witness :
  exists lpre l lpost pre post,
    values (data Samples.book) = lpre ++ l :: lpost /\
    (forall l' m, l' ∈ lpre -> m ∈ notes (heap Samples.book l') ->
                  title m <> "shopping"%string) /\
    notes (heap Samples.book l) = pre ++ mkNote "shopping" "milk" [] :: post /\
    title (mkNote "shopping" "milk" []) = "shopping"%string /\
    forall m, m ∈ pre -> title m <> "shopping"%string.
Proof. exact (find_note_by_title_first Samples.book "shopping"). Defined.

Lemma delete_note_by_title_removes_found_witness :
  exists l pre post,
    l ∈ values (data Samples.book) /\
    notes (heap Samples.book l) = pre ++ mkNote "shopping" "milk" [] :: post /\
    (forall m, m ∈ pre -> title m <> "shopping"%string) /\
    let s' := after (delete_note_by_title "shopping") Samples.book in
    result (delete_note_by_title "shopping") Samples.book = Ok tt /\
    data s' = data Samples.book /\
    heap s' l = set_notes (pre ++ post) (heap Samples.book l) /\
    forall l', l' <> l -> heap s' l' = heap Samples.book l'.
Proof.
  apply (delete_note_by_title_removes_found Samples.book "shopping").
  reflexivity.
Defined.

(** ** The key invariant, as far as the code keeps it *)

(** X23: in a directory reached from the empty one by method calls none of
    which was a rename that the record refused, every key is the name of
    the record stored under it and the keys are distinct, and every
    further such call keeps this.  There [update_name] on an absent key
    raises [KeyError] and changes nothing; on a present key it re-keys the
    entry, the other names finding what they found, and then either the
    record accepts and carries the new name, or the record's exception
    reaches the caller with the records untouched. *)
Theorem key_invariant_without_refused_rename (refuses : entity) (s : State) :
  reachable refuses NoRefusedRename s ->
  Inv s /\ NoDup (keys (data s)) /\
  (forall s', step refuses NoRefusedRename s s' -> Inv s') /\
  (forall old new,
     let s' := after (update_name refuses old new) s in
     match dict_get old (data s) with
     | None =>
         result (update_name refuses old new) s = Raise (KeyError old) /\
         s' = s
     | Some l =>
         dict_get new (data s') = Some l /\
         (old <> new -> dict_get old (data s') = None) /\
         (forall k, k <> old -> k <> new ->
            dict_get k (data s') = dict_get k (data s)) /\
         match refuses (heap s l) new with
         | None =>
             result (update_name refuses old new) s = Ok NameUpdated /\
             name (heap s' l) = new
         | Some e =>
             result (update_name refuses old new) s = Raise e /\
             heap s' = heap s
         end
     end).
Proof.
  intros [HI Hn]%reachable_wf. split_and!; [done | done | |].
  - intros s' Hs'. by apply (step_wf refuses s s').
  - intros old new s'. subst s'.
    destruct (dict_get old (data s)) as [l|] eqn:E.
    + destruct (update_name_present refuses s old new l E) as [Hd Hres].
      rewrite Hd. split_and!; [apply dict_get_set_eq | | |].
      * intros Hne. rewrite dict_get_set_ne by done. apply dict_get_del_eq.
      * intros k Hk Hk'. by rewrite dict_get_set_ne, dict_get_del_ne.
      * rewrite Hres. unfold after.
        destruct (refuses (heap s l) new) as [e|] eqn:Hr.
        -- by rewrite (update_name_refused _ _ _ _ _ _ E Hr).
        -- rewrite (update_name_accepted _ _ _ _ _ E Hr). cbn [snd heap].
           by rewrite fn_lookup_insert.
    + unfold result, after. by rewrite (update_name_absent _ _ _ _ E).
Qed.

Lemma key_invariant_without_refused_rename_witness :
  let renamed := after (update_name MoreSamples.named "Bob" "Robert")
                   Samples.book in
  Inv Samples.book /\ NoDup (keys (data Samples.book)) /\
  Inv renamed /\
  dict_get "Robert" (data renamed) = Some Samples.bob_ref /\
  dict_get "Bob" (data renamed) = None /\
  dict_get "Alice" (data renamed) = dict_get "Alice" (data Samples.book) /\
  name (heap renamed Samples.bob_ref) = "Robert"%string.
Proof.
  destruct (key_invariant_without_refused_rename MoreSamples.named Samples.book
              (book_reachable MoreSamples.named NoRefusedRename))
    as (HI & Hn & Hstep & Hren).
  destruct (Hren "Bob"%string "Robert"%string)
    as (Hnew & Hold & Hrest & _ & Hname).
  split_and!; [exact HI | exact Hn | | exact Hnew | apply Hold; discriminate
              | apply Hrest; discriminate | exact Hname].
  apply Hstep, step_update_name.
  intros _ (l & e & Hl & He). injection Hl as <-. discriminate He.
Defined.
